(** * Feature selection pipelines of LightAutoML

    A shallow embedding of [lightautoml/pipelines/selection/base.py]:
    the classes [ImportanceEstimator], [SelectionPipeline],
    [EmptySelector], [PredefinedSelector] and [ComposedSelector].

    Python objects live in a store addressed by references, so that a
    composed selector and its children are the same objects the caller
    holds.  Methods run in a state monad over the store in which a raised
    exception keeps the mutations made before it.  Collaborators that are
    defined outside the file (the dataset, the train/valid iterator, the
    model, the tuner, the name mapping) are an interface, so every
    theorem holds whatever they compute. *)

From stdpp Require Import base tactics option list strings gmap sorting.
From Stdlib Require PrimFloat.

Local Open Scope string_scope.

(** ** Exceptions and the state monad *)

Inductive Exception : Type :=
  | AssertionError (msg : string)
  | TypeError (msg : string)
  | ValueError (msg : string)
  | IndexError (msg : string)
  | KeyError (key : string)
  | AttributeError (msg : string)
  | NotImplementedError
  | RecursionError
  | ReferenceError.

Global Instance Exception_eq_dec : EqDecision Exception.
Proof. solve_decision. Defined.

(** A computation over a state [Σ]: an exception or a value, and the
    state as it is when the computation stops. *)
Definition St (Σ A : Type) : Type := Σ → (Exception + A) * Σ.

Definition ret {Σ A} (a : A) : St Σ A := λ s, (inr a, s).

Definition raise {Σ A} (e : Exception) : St Σ A := λ s, (inl e, s).

Definition bind {Σ A B} (m : St Σ A) (k : A → St Σ B) : St Σ B :=
  λ s, match m s with
       | (inl e, s') => (inl e, s')
       | (inr a, s') => k a s'
       end.

Definition gets {Σ A} (f : Σ → A) : St Σ A := λ s, (inr (f s), s).

Definition modify {Σ} (f : Σ → Σ) : St Σ unit := λ s, (inr tt, f s).

(** A pure result, possibly an exception, as a computation. *)
Definition lift {Σ A} (r : Exception + A) : St Σ A := λ s, (r, s).

Notation "x <- m ;; k" := (bind m (λ x, k))
  (at level 100, m at next level, right associativity).
Notation "m ;;; k" := (bind m (λ _, k))
  (at level 100, right associativity).

(** [assert cond, msg] *)
Definition assert {Σ} (cond : bool) (msg : string) : St Σ unit :=
  if cond then ret tt else raise (AssertionError msg).

(** [for x in l: acc = body(acc, x)] *)
Fixpoint for_loop {Σ A B} (l : list A) (acc : B) (body : B → A → St Σ B)
    : St Σ B :=
  match l with
  | [] => ret acc
  | x :: l' => acc' <- body acc x ;; for_loop l' acc' body
  end.

(** ** Collaborators with a fixed shape *)

(** The role of a column; only [force_input] matters to a selector. *)
Record ColumnRole : Type := { force_input : bool }.

Module LAMLDataset.

(** Modelled from the spec: the dataset container is defined outside
    the file.  It is an ordered collection of named feature columns
    with a role per feature name. *)
Record t : Type := mk {
  features : list string;
  roles : gmap string ColumnRole
}.

(** The view of [dataset] on the columns [cols], which it has: exactly
    the requested feature list and the roles of those names. *)
Definition view (dataset : t) (cols : list string) : t :=
  {| features := cols;
     roles := filter (λ kv, kv.1 ∈ cols) (roles dataset) |}.

(** Modelled from the spec: [dataset[:, cols]], slicing by an ordered
    list of feature names to a narrower view, all rows retained.  A
    requested name that is not a column of the dataset is a [KeyError]. *)
Definition getitem_cols (dataset : t) (cols : list string) : Exception + t :=
  match filter (λ col, col ∉ features dataset) cols with
  | [] => inr (view dataset cols)
  | col :: _ => inl (KeyError col)
  end.

End LAMLDataset.

Module TrainValidIterator.

(** Modelled from the spec: the train/valid iterator is defined outside
    the file.  It carries the training dataset, whose features are the
    iterator's current features, and its validation part. *)
Record t : Type := mk {
  train : LAMLDataset.t;
  valid : option LAMLDataset.t
}.

Definition features (self : t) : list string :=
  LAMLDataset.features (train self).

(** [copy(self)] with [train] replaced. *)
Definition with_train (self : t) (train' : LAMLDataset.t) : t :=
  {| train := train'; valid := valid self |}.

End TrainValidIterator.

Module MLAlgo.

(** Modelled from the spec: of the model the selector reads whether it
    is fitted and, when it is, the ordered features it was fitted on. *)
Record t : Type := mk {
  is_fitted : bool;
  features : list string
}.

End MLAlgo.

(** ** Collaborators as an interface *)

(** The types and functions [base.py] imports.  Scores are floats in the
    source; here they are any type with an addition and a comparison. *)
Class Collaborators : Type := {
  score : Type;
  score_zero : score;
  score_add : score → score → score;
  score_leb : score → score → bool;
  FeaturesPipeline : Type;
  ParamsTuner : Type;
  Predictions : Type;
  (** [DefaultTuner()] *)
  DefaultTuner : ParamsTuner;
  (** [train_valid.convert_to_holdout_iterator()] *)
  convert_to_holdout_iterator : TrainValidIterator.t → TrainValidIterator.t;
  (** [train_valid.apply_feature_pipeline(features_pipeline)] *)
  apply_feature_pipeline :
    TrainValidIterator.t → FeaturesPipeline → TrainValidIterator.t;
  (** [tune_and_fit_predict(ml_algo, tuner, train_valid)] *)
  tune_and_fit_predict :
    MLAlgo.t → ParamsTuner → TrainValidIterator.t → MLAlgo.t * Predictions;
  (** The input feature the name mapping traces one output feature to,
      or the exception it raises on a name it cannot trace. *)
  map_pipeline_name : list string → string → Exception + string
}.

(** Calls to collaborators, recorded in the order they are made. *)
Inductive Call : Type :=
  | convert_to_holdout_iterator_call
  | apply_feature_pipeline_call
  | tune_and_fit_predict_call
  | imp_estimator_fit_call.

Global Instance Call_eq_dec : EqDecision Call.
Proof. solve_decision. Defined.

(** References to selector objects in the store. *)
Definition ref : Type := nat.

Section Model.

Context `{Collaborators}.

(** ** pandas [Series] of scores *)

(** Rows in order, each an index label and a value; labels may repeat. *)
Definition Series : Type := list (string * score).

Definition Series_index (s : Series) : list string := s.*1.

Definition Series_values (s : Series) : list score := s.*2.

(** [Series(values, index=index)] *)
Definition Series_new (values : list score) (index : list string)
    : Exception + Series :=
  if decide (length values = length index)
  then inr (zip index values)
  else inl (ValueError "Length of values does not match length of index").

(** The values of the rows labelled [label], in row order. *)
Definition group_values (label : string) (s : Series) : list score :=
  (filter (λ row, row.1 = label) s).*2.

Definition sum_scores (values : list score) : score :=
  foldl score_add score_zero values.

(** [s.groupby(level=0).sum()]: one row per distinct label, holding the
    sum of the values under that label.  pandas lists the groups by
    label; the order of the groups only decides, after [sort_values],
    the order of rows with equal scores. *)
Definition groupby_sum (s : Series) : Series :=
  map (λ label, (label, sum_scores (group_values label s)))
      (remove_dups (Series_index s)).

Fixpoint insert_desc (row : string * score) (s : Series) : Series :=
  match s with
  | [] => [row]
  | r :: s' =>
      if score_leb r.2 row.2 then row :: r :: s' else r :: insert_desc row s'
  end.

(** [s.sort_values(ascending=False)] *)
Definition sort_values_desc (s : Series) : Series := foldr insert_desc [] s.

(** ** [ImportanceEstimator] *)

Record ImportanceEstimator : Type := {
  raw_importances : option Series;
  (** The [fit] of a concrete estimator: the table it stores, or the
      exception it raises.  [None] is the abstract class. *)
  fit_override :
    option (TrainValidIterator.t → option MLAlgo.t → option Predictions
            → Exception + option Series)
}.

Definition ImportanceEstimator__init__
    (fit_override :
       option (TrainValidIterator.t → option MLAlgo.t → option Predictions
               → Exception + option Series)) : ImportanceEstimator :=
  {| raw_importances := None; fit_override := fit_override |}.

Definition ImportanceEstimator_fit (self : ImportanceEstimator)
    (train_valid : TrainValidIterator.t) (ml_algo : option MLAlgo.t)
    (preds : option Predictions) : Exception + ImportanceEstimator :=
  match fit_override self with
  | None => inl NotImplementedError
  | Some f =>
      match f train_valid ml_algo preds with
      | inl e => inl e
      | inr imps => inr {| raw_importances := imps; fit_override := Some f |}
      end
  end.

Definition ImportanceEstimator_get_features_score
    (self : ImportanceEstimator) : option Series :=
  raw_importances self.

(** ** Selector objects *)

(** The attributes [SelectionPipeline.__init__] creates.  [tuner] exists
    only once it has been assigned. *)
Record Fields : Type := {
  features_pipeline : option FeaturesPipeline;
  _fit_on_holdout : bool;
  ml_algo : option MLAlgo.t;
  tuner : option ParamsTuner;
  _empty_algo : option MLAlgo.t;
  imp_estimator : option ImportanceEstimator;
  _selected_features : option (list string);
  _in_features : option (list string);
  mapped_importances : option Series
}.

Definition set_ml_algo (v : option MLAlgo.t) (f : Fields) : Fields :=
  {| features_pipeline := features_pipeline f;
     _fit_on_holdout := _fit_on_holdout f;
     ml_algo := v;
     tuner := tuner f;
     _empty_algo := _empty_algo f;
     imp_estimator := imp_estimator f;
     _selected_features := _selected_features f;
     _in_features := _in_features f;
     mapped_importances := mapped_importances f |}.

Definition set_imp_estimator (v : option ImportanceEstimator) (f : Fields)
    : Fields :=
  {| features_pipeline := features_pipeline f;
     _fit_on_holdout := _fit_on_holdout f;
     ml_algo := ml_algo f;
     tuner := tuner f;
     _empty_algo := _empty_algo f;
     imp_estimator := v;
     _selected_features := _selected_features f;
     _in_features := _in_features f;
     mapped_importances := mapped_importances f |}.

Definition set__selected_features (v : option (list string)) (f : Fields)
    : Fields :=
  {| features_pipeline := features_pipeline f;
     _fit_on_holdout := _fit_on_holdout f;
     ml_algo := ml_algo f;
     tuner := tuner f;
     _empty_algo := _empty_algo f;
     imp_estimator := imp_estimator f;
     _selected_features := v;
     _in_features := _in_features f;
     mapped_importances := mapped_importances f |}.

Definition set__in_features (v : option (list string)) (f : Fields)
    : Fields :=
  {| features_pipeline := features_pipeline f;
     _fit_on_holdout := _fit_on_holdout f;
     ml_algo := ml_algo f;
     tuner := tuner f;
     _empty_algo := _empty_algo f;
     imp_estimator := imp_estimator f;
     _selected_features := _selected_features f;
     _in_features := v;
     mapped_importances := mapped_importances f |}.

Definition set_mapped_importances (v : option Series) (f : Fields) : Fields :=
  {| features_pipeline := features_pipeline f;
     _fit_on_holdout := _fit_on_holdout f;
     ml_algo := ml_algo f;
     tuner := tuner f;
     _empty_algo := _empty_algo f;
     imp_estimator := imp_estimator f;
     _selected_features := _selected_features f;
     _in_features := _in_features f;
     mapped_importances := v |}.

(** The class of a selector object, with the attributes its own
    [__init__] adds.  [Subclass] is any other class that overrides
    [perform_selection], acting on its own attributes. *)
Inductive SelectorClass : Type :=
  | SelectionPipeline_class
  | EmptySelector_class
  | PredefinedSelector_class (columns_to_select : gset string)
  | ComposedSelector_class (selectors : list ref)
  | Subclass (perform_selection :
                TrainValidIterator.t → Fields → (Exception + unit) * Fields).

Record Obj : Type := { cls : SelectorClass; fields : Fields }.

(** The store of selector objects and the calls made so far. *)
Record World : Type := { heap : list Obj; log : list Call }.

(** What a method that only touches [self] works on. *)
Record Frame : Type := { this : Fields; calls : list Call }.

Definition Method (A : Type) : Type := St Frame A.

Definition getattr {A} (attr : Fields → A) : Method A :=
  gets (λ fr, attr (this fr)).

Definition setattr (upd : Fields → Fields) : Method unit :=
  modify (λ fr, {| this := upd (this fr); calls := calls fr |}).

Definition call (c : Call) : Method unit :=
  modify (λ fr, {| this := this fr; calls := calls fr ++ [c] |}).

(** Runs a method of the object [self] points to. *)
Definition on_self {A} (self : ref) (m : Method A) : St World A :=
  λ w, match heap w !! self with
       | None => (inl ReferenceError, w)
       | Some o =>
           let '(r, fr) := m {| this := fields o; calls := log w |} in
           (r, {| heap := <[self := {| cls := cls o; fields := this fr |}]>
                            (heap w);
                  log := calls fr |})
       end.

Definition class_of (self : ref) : St World SelectorClass :=
  λ w, match heap w !! self with
       | None => (inl ReferenceError, w)
       | Some o => (inr (cls o), w)
       end.

(** An attribute or method [name] of [x], which may be [None]. *)
Definition nonnull {Σ A} (x : option A) (name : string) : St Σ A :=
  match x with
  | Some a => ret a
  | None =>
      raise (AttributeError
               ("'NoneType' object has no attribute '" ++ name ++ "'"))
  end.

(** [l[0]] and [l[-1]] *)
Definition getitem_first {Σ A} (l : list A) : St Σ A :=
  match head l with
  | Some a => ret a
  | None => raise (IndexError "list index out of range")
  end.

Definition getitem_last {Σ A} (l : list A) : St Σ A :=
  match last l with
  | Some a => ret a
  | None => raise (IndexError "list index out of range")
  end.

(** ** [SelectionPipeline] *)

(** [__init__] (lines 93-126).  [ml_algo] is a model or a pair of a model
    and a tuner; a lone model gets [DefaultTuner()]. *)
Definition SelectionPipeline__init__
    (features_pipeline : option FeaturesPipeline)
    (ml_algo : option (MLAlgo.t + MLAlgo.t * ParamsTuner))
    (imp_estimator : option ImportanceEstimator)
    (fit_on_holdout : bool) : Fields :=
  let '(self_ml_algo, self_tuner) :=
    match ml_algo with
    | None => (None, None)
    | Some (inr (algo, tuner)) => (Some algo, Some tuner)
    | Some (inl algo) => (Some algo, Some DefaultTuner)
    end in
  {| features_pipeline := features_pipeline;
     _fit_on_holdout := fit_on_holdout;
     ml_algo := self_ml_algo;
     tuner := self_tuner;
     _empty_algo :=
       match self_ml_algo with
       | Some algo => if MLAlgo.is_fitted algo then None else Some algo
       | None => None
       end;
     imp_estimator := imp_estimator;
     _selected_features := None;
     _in_features := None;
     mapped_importances := None |}.

(** The properties (lines 47-91). *)
Definition is_fitted : Method bool :=
  sf <- getattr _selected_features ;;
  ret (match sf with Some _ => true | None => false end).

Definition selected_features : Method (list string) :=
  sf <- getattr _selected_features ;;
  match sf with
  | Some l => ret l
  | None => raise (AssertionError "Should be fitted first")
  end.

Definition in_features : Method (list string) :=
  inf <- getattr _in_features ;;
  match inf with
  | Some l => ret l
  | None => raise (AssertionError "Should be fitted first")
  end.

(** Iterating over [x], which may be [None]. *)
Definition iterate {Σ A} (x : option (list A)) : St Σ (list A) :=
  match x with
  | Some l => ret l
  | None => raise (TypeError "'NoneType' object is not iterable")
  end.

Definition dropped_features : Method (list string) :=
  sf <- getattr _selected_features ;;
  sf <- iterate sf ;;
  let included : gset string := list_to_set sf in
  inf <- getattr _in_features ;;
  inf <- iterate inf ;;
  ret (filter (λ x, x ∉ included) inf).

(** [perform_selection] of the abstract class (lines 128-137). *)
Definition SelectionPipeline_perform_selection
    (train_valid : TrainValidIterator.t) : Method unit :=
  raise NotImplementedError.

(** [fit] (lines 139-167).  [perform_selection] is the method of the
    class of [self]. *)
Definition SelectionPipeline_fit
    (perform_selection : TrainValidIterator.t → Method unit)
    (train_valid : option TrainValidIterator.t) : Method unit :=
  fitted <- is_fitted ;;
  if negb fitted then
    fit_on_holdout <- getattr _fit_on_holdout ;;
    train_valid <-
      (if fit_on_holdout then
         tv <- nonnull train_valid "convert_to_holdout_iterator" ;;
         call convert_to_holdout_iterator_call ;;;
         ret (convert_to_holdout_iterator tv)
       else nonnull train_valid "features") ;;
    setattr (set__in_features (Some (TrainValidIterator.features train_valid))) ;;;
    pipeline <- getattr features_pipeline ;;
    train_valid <-
      match pipeline with
      | Some pipeline =>
          call apply_feature_pipeline_call ;;;
          ret (apply_feature_pipeline train_valid pipeline)
      | None => ret train_valid
      end ;;
    algo <- getattr ml_algo ;;
    preds <-
      match algo with
      | Some algo =>
          if MLAlgo.is_fitted algo then
            assert (bool_decide (MLAlgo.features algo
                                 = TrainValidIterator.features train_valid))
                   "Features in feated MLAlgo should match exactly" ;;;
            ret None
          else
            self_tuner <- getattr tuner ;;
            self_tuner <- nonnull self_tuner "tuner" ;;
            call tune_and_fit_predict_call ;;;
            let '(algo', preds) :=
              tune_and_fit_predict algo self_tuner train_valid in
            setattr (set_ml_algo (Some algo')) ;;;
            ret (Some preds)
      | None => ret None
      end ;;
    estimator <- getattr imp_estimator ;;
    match estimator with
    | Some estimator =>
        algo <- getattr ml_algo ;;
        call imp_estimator_fit_call ;;;
        estimator' <- lift (ImportanceEstimator_fit estimator train_valid
                                                    algo preds) ;;
        setattr (set_imp_estimator (Some estimator'))
    | None => ret tt
    end ;;;
    perform_selection train_valid
  else ret tt.

(** The body of the loop of [select], on the local list
    [selected_features]:
    [if roles[col].force_input: if col not in sl_set: append(col)]. *)
Definition select_body (roles : gmap string ColumnRole)
    (sl_set : gset string) (selected : list string) (col : string)
    : Method (list string) :=
  role <- match roles !! col with
          | Some role => ret role
          | None => raise (KeyError col)
          end ;;
  if force_input role then
    if bool_decide (col ∉ sl_set) then ret (selected ++ [col])%list
    else ret selected
  else ret selected.

(** [select] (lines 169-189).  The loop extends the local copy; the
    dataset is sliced by [self.selected_features]. *)
Definition select (dataset : LAMLDataset.t) : Method LAMLDataset.t :=
  selected <- selected_features ;;
  (* Add features that forces input *)
  let sl_set : gset string := list_to_set selected in
  let roles := LAMLDataset.roles dataset in
  for_loop (filter (λ x, x ∉ sl_set) (LAMLDataset.features dataset)) selected
    (select_body roles sl_set) ;;;
  self_selected <- selected_features ;;
  lift (LAMLDataset.getitem_cols dataset self_selected).

(** Modelled from the spec: the name mapping is defined outside the file.
    It returns, for each output name, the input name it originates
    from, and raises when one of the names cannot be traced. *)
Fixpoint map_pipeline_names (input_names output_names : list string)
    : Exception + list string :=
  match output_names with
  | [] => inr []
  | name :: output_names' =>
      match map_pipeline_name input_names name with
      | inl e => inl e
      | inr input_name =>
          match map_pipeline_names input_names output_names' with
          | inl e => inl e
          | inr mapped => inr (input_name :: mapped)
          end
      end
  end.

(** [map_raw_feature_importances] (lines 191-202). *)
Definition map_raw_feature_importances (raw_importances : Series)
    : Method unit :=
  inf <- in_features ;;
  mapped <- lift (map_pipeline_names inf (Series_index raw_importances)) ;;
  mapped_importance <- lift (Series_new (Series_values raw_importances)
                                        mapped) ;;
  setattr (set_mapped_importances
             (Some (sort_values_desc (groupby_sum mapped_importance)))).

Definition SelectionPipeline_get_features_score : Method (option Series) :=
  getattr mapped_importances.

(** ** [EmptySelector] and [PredefinedSelector] *)

(** Lines 226-235. *)
Definition EmptySelector_perform_selection
    (train_valid : TrainValidIterator.t) : Method unit :=
  setattr (set__selected_features
             (Some (TrainValidIterator.features train_valid))).

(** Lines 253-264. *)
Definition PredefinedSelector_perform_selection
    (columns_to_select : gset string) (train_valid : TrainValidIterator.t)
    : Method unit :=
  assert (bool_decide
            (size columns_to_select
             = size (columns_to_select
                     ∩ list_to_set (TrainValidIterator.features train_valid))))
         "Columns to select not match with dataset features" ;;;
  setattr (set__selected_features (Some (elements columns_to_select))).

(** The [perform_selection] of a class that is not in the file. *)
Definition Subclass_perform_selection
    (perform : TrainValidIterator.t → Fields → (Exception + unit) * Fields)
    (train_valid : TrainValidIterator.t) : Method unit :=
  λ fr, let '(r, f) := perform train_valid (this fr) in
        (r, {| this := f; calls := calls fr |}).

(** ** [ComposedSelector] and the iterator's [apply_selector] *)

(** Modelled from the spec: [train_valid.apply_selector(selector)] is
    defined outside the file.  It fits the selector against the iterator
    if it is not already fit and returns a new iterator restricted, by the
    selector's [select], to the selector's selected features. *)
Definition apply_selector
    (fit : ref → option TrainValidIterator.t → St World unit)
    (train_valid : TrainValidIterator.t) (selector : ref)
    : St World TrainValidIterator.t :=
  fitted <- on_self selector is_fitted ;;
  (if fitted then ret tt else fit selector (Some train_valid)) ;;;
  train' <- on_self selector (select (TrainValidIterator.train train_valid)) ;;
  ret (TrainValidIterator.with_train train_valid train').

(** Lines 296-304. *)
Definition ComposedSelector_perform_selection (self : ref)
    (selectors : list ref) (train_valid : option TrainValidIterator.t)
    : St World unit :=
  last_selector <- getitem_last selectors ;;
  selected <- on_self last_selector selected_features ;;
  on_self self (setattr (set__selected_features (Some selected))).

(** The body of the loop of [ComposedSelector.fit]:
    [train_valid = train_valid.apply_selector(selector)]. *)
Definition ComposedSelector_fit_body
    (fit : ref → option TrainValidIterator.t → St World unit)
    (train_valid : option TrainValidIterator.t) (selector : ref)
    : St World (option TrainValidIterator.t) :=
  tv <- nonnull train_valid "apply_selector" ;;
  tv' <- apply_selector fit tv selector ;;
  ret (Some tv').

(** [fit] of a composed selector (lines 282-294); it has no
    [is_fitted] guard. *)
Definition ComposedSelector_fit
    (fit : ref → option TrainValidIterator.t → St World unit)
    (self : ref) (selectors : list ref)
    (train_valid : option TrainValidIterator.t) : St World unit :=
  train_valid <-
    for_loop selectors train_valid (ComposedSelector_fit_body fit) ;;
  first_selector <- getitem_first selectors ;;
  inf <- on_self first_selector in_features ;;
  on_self self (setattr (set__in_features (Some inf))) ;;;
  ComposedSelector_perform_selection self selectors train_valid.

(** Lines 306-311. *)
Definition ComposedSelector_get_features_score (selectors : list ref)
    : St World (option Series) :=
  last_selector <- getitem_last selectors ;;
  on_self last_selector (getattr mapped_importances).

(** ** Method dispatch *)

(** [self.fit(train_valid)].  [limit] is the depth of nested calls the
    interpreter allows. *)
Fixpoint fit (limit : nat) (self : ref)
    (train_valid : option TrainValidIterator.t) : St World unit :=
  match limit with
  | 0 => raise RecursionError
  | S limit' =>
      c <- class_of self ;;
      match c with
      | SelectionPipeline_class =>
          on_self self
            (SelectionPipeline_fit SelectionPipeline_perform_selection
                                   train_valid)
      | EmptySelector_class =>
          on_self self
            (SelectionPipeline_fit EmptySelector_perform_selection
                                   train_valid)
      | PredefinedSelector_class columns_to_select =>
          on_self self
            (SelectionPipeline_fit
               (PredefinedSelector_perform_selection columns_to_select)
               train_valid)
      | ComposedSelector_class selectors =>
          ComposedSelector_fit (fit limit') self selectors train_valid
      | Subclass perform =>
          on_self self
            (SelectionPipeline_fit (Subclass_perform_selection perform)
                                   train_valid)
      end
  end.

(** [self.get_features_score()] *)
Definition get_features_score (self : ref) : St World (option Series) :=
  c <- class_of self ;;
  match c with
  | ComposedSelector_class selectors =>
      ComposedSelector_get_features_score selectors
  | _ => on_self self SelectionPipeline_get_features_score
  end.

(** ** Constructors *)

Definition new (c : SelectorClass) (f : Fields) : St World ref :=
  λ w, (inr (length (heap w)),
        {| heap := heap w ++ [{| cls := c; fields := f |}]; log := log w |}).

Definition SelectionPipeline
    (features_pipeline : option FeaturesPipeline)
    (ml_algo : option (MLAlgo.t + MLAlgo.t * ParamsTuner))
    (imp_estimator : option ImportanceEstimator)
    (fit_on_holdout : bool) : St World ref :=
  new SelectionPipeline_class
      (SelectionPipeline__init__ features_pipeline ml_algo imp_estimator
                                 fit_on_holdout).

Definition EmptySelector : St World ref :=
  new EmptySelector_class (SelectionPipeline__init__ None None None false).

Definition PredefinedSelector (columns_to_select : list string)
    : St World ref :=
  new (PredefinedSelector_class (list_to_set columns_to_select))
      (SelectionPipeline__init__ None None None false).

Definition ComposedSelector (selectors : list ref) : St World ref :=
  new (ComposedSelector_class selectors)
      (SelectionPipeline__init__ None None None false).

End Model.

(** ** What the specification says [select] keeps *)

Section Specification.

Context `{Collaborators}.

(** The features of [dataset] outside [selected] whose role forces them
    in, in the dataset's order. *)
Definition forced_features (dataset : LAMLDataset.t) (selected : list string)
    : list string :=
  filter (λ x, (x ∉ selected)
               ∧ (force_input <$> (LAMLDataset.roles dataset !! x))
                 = Some true)
         (LAMLDataset.features dataset).

(** The feature list the specification gives for [select]: the selected
    features, then the forced ones. *)
Definition select_spec_features (dataset : LAMLDataset.t)
    (selected : list string) : list string :=
  (selected ++ forced_features dataset selected)%list.

(** The iterator [SelectionPipeline.fit] records the input features of:
    the one it is given, after the holdout conversion. *)
Definition iterator_at_input (self : Fields)
    (train_valid : TrainValidIterator.t) : TrainValidIterator.t :=
  if _fit_on_holdout self then convert_to_holdout_iterator train_valid
  else train_valid.

(** The iterator [SelectionPipeline.fit] holds when it reaches the model:
    after the holdout conversion and the feature pipeline. *)
Definition iterator_at_model (self : Fields)
    (train_valid : TrainValidIterator.t) : TrainValidIterator.t :=
  match features_pipeline self with
  | Some pipeline =>
      apply_feature_pipeline (iterator_at_input self train_valid) pipeline
  | None => iterator_at_input self train_valid
  end.

(** The collaborator calls [SelectionPipeline.fit] makes before it
    reaches the model. *)
Definition calls_before_model (self : Fields) : list Call :=
  ((if _fit_on_holdout self then [convert_to_holdout_iterator_call] else [])
   ++ match features_pipeline self with
      | Some _ => [apply_feature_pipeline_call]
      | None => []
      end)%list.

(** The selector as [SelectionPipeline.fit] has it when it reaches the
    model: the input features recorded, the calls made so far logged. *)
Definition frame_at_model (fr : Frame) (train_valid : TrainValidIterator.t)
    : Frame :=
  {| this := set__in_features
               (Some (TrainValidIterator.features
                        (iterator_at_input (this fr) train_valid)))
               (this fr);
     calls := (calls fr ++ calls_before_model (this fr))%list |}.

(** How often the tuner was run. *)
Definition tuning_calls (l : list Call) : nat :=
  length (filter (λ c, c = tune_and_fit_predict_call) l).

(** The raw scores whose output feature maps to the input feature
    [name], in row order. *)
Definition scores_mapped_to (input_names : list string) (name : string)
    (raw_importances : Series) : list score :=
  (filter (λ row, map_pipeline_name input_names row.1 = inr name)
          raw_importances).*2.



(** An object whose [_selected_features] is set. *)
Definition fitted (o : Obj) : Prop :=
  is_Some (_selected_features (fields o)).

(** From [w] to [w'] no object is created, every object keeps its place
    and its class, and the fitted ones, [self] apart, are untouched. *)
Definition keeps_fitted_except (self : option ref) (w w' : World) : Prop :=
  length (heap w') = length (heap w)
  ∧ ∀ j o, heap w !! j = Some o →
      ∃ o', heap w' !! j = Some o'
            ∧ cls o' = cls o
            ∧ (self ≠ Some j → fitted o → o' = o).

(** A method that reads the object and leaves it as it is. *)
Definition reads_only {A} (m : Method A) : Prop :=
  ∀ fr r fr', m fr = (r, fr') → fr' = fr.

(** The [perform_selection] that [SelectionPipeline.fit] reaches on an
    object of class [c]; a composed selector has its own [fit]. *)
Definition perform_selection_of (c : SelectorClass)
    : option (TrainValidIterator.t → Method unit) :=
  match c with
  | SelectionPipeline_class => Some SelectionPipeline_perform_selection
  | EmptySelector_class => Some EmptySelector_perform_selection
  | PredefinedSelector_class columns_to_select =>
      Some (PredefinedSelector_perform_selection columns_to_select)
  | ComposedSelector_class _ => None
  | Subclass perform => Some (Subclass_perform_selection perform)
  end.

(** A selector with nothing configured: no holdout, pipeline, model or
    estimator. *)
Definition bare (f : Fields) : Prop :=
  _fit_on_holdout f = false
  ∧ features_pipeline f = None
  ∧ ml_algo f = None
  ∧ imp_estimator f = None.

(** A composed selector is not one of its own children. *)
Definition not_own_child (w : World) (self : ref) : Prop :=
  ∀ o selectors,
    heap w !! self = Some o → cls o = ComposedSelector_class selectors →
    self ∉ selectors.

End Specification.

(** ** A concrete instance of the collaborators *)

Module Demo.

(** The first input name that is a prefix of the output name. *)
Definition prefix_name (input_names : list string) (name : string)
    : Exception + string :=
  match head (filter (λ i, String.prefix i name = true) input_names) with
  | Some input_name => inr input_name
  | None => inl (AssertionError "Can not infer names")
  end.

Definition collaborators : Collaborators := {|
  score := Z;
  score_zero := 0%Z;
  score_add := Z.add;
  score_leb := Z.leb;
  FeaturesPipeline := list string;
  ParamsTuner := nat;
  Predictions := unit;
  DefaultTuner := 0;
  convert_to_holdout_iterator := λ tv, tv;
  apply_feature_pipeline := λ tv derived,
    TrainValidIterator.with_train tv
      (LAMLDataset.view (TrainValidIterator.train tv) derived);
  tune_and_fit_predict := λ algo _ tv,
    ({| MLAlgo.is_fitted := true;
        MLAlgo.features := TrainValidIterator.features tv |}, tt);
  map_pipeline_name := prefix_name
|}.

Definition role (forced : bool) : ColumnRole := {| force_input := forced |}.

(** Features a, b, c; b is forced in. *)
Definition abc : LAMLDataset.t :=
  {| LAMLDataset.features := ["a"; "b"; "c"];
     LAMLDataset.roles :=
       <["a" := role false]>
         (<["b" := role true]> (<["c" := role false]> ∅)) |}.

Definition abc_iterator : TrainValidIterator.t :=
  {| TrainValidIterator.train := abc; TrainValidIterator.valid := None |}.

Definition fresh : @Fields collaborators :=
  @SelectionPipeline__init__ collaborators None None None false.

(** A selector fitted with ["a"] selected out of a, b, c. *)
Definition fitted_a : @Frame collaborators :=
  {| this := set__selected_features (Some ["a"])
               (set__in_features (Some ["a"; "b"; "c"]) fresh);
     calls := [] |}.

Definition empty_world : @World collaborators := {| heap := []; log := [] |}.

(** The dataset [abc] with the role of c missing. *)
Definition abc_without_role_c : LAMLDataset.t :=
  {| LAMLDataset.features := ["a"; "b"; "c"];
     LAMLDataset.roles := <["a" := role false]> (<["b" := role true]> ∅) |}.

(** An iterator over a and b only. *)
Definition ab_iterator : TrainValidIterator.t :=
  {| TrainValidIterator.train :=
       LAMLDataset.view abc ["a"; "b"];
     TrainValidIterator.valid := None |}.

(** A store with [PredefinedSelector(["a", "b"])] at 0,
    [EmptySelector()] at 1 and [ComposedSelector] of the two at 2. *)
Definition chain_world : @World collaborators :=
  ((s1 <- PredefinedSelector ["a"; "b"] ;;
    s2 <- EmptySelector ;;
    ComposedSelector [s1; s2]) empty_world).2.

(** The three objects of [chain_world]. *)
Definition chain_first : @Obj collaborators :=
  {| cls := PredefinedSelector_class (list_to_set ["a"; "b"]);
     fields := fresh |}.

Definition chain_second : @Obj collaborators :=
  {| cls := EmptySelector_class; fields := fresh |}.

Definition chain_composed : @Obj collaborators :=
  {| cls := ComposedSelector_class [0; 1]; fields := fresh |}.

(** The store after the composed selector is fitted on [abc]. *)
Definition fitted_chain_world : @World collaborators :=
  (fit 2 2 (Some abc_iterator) chain_world).2.

(** A store holding a fitted [EmptySelector] at 0 and a composed
    selector over it at 1. *)
Definition score_world : @World collaborators :=
  {| heap := [{| cls := EmptySelector_class; fields := this fitted_a |};
              {| cls := ComposedSelector_class [0]; fields := fresh |}];
     log := [] |}.

(** A store holding one fitted [EmptySelector]. *)
Definition fitted_empty_world : @World collaborators :=
  {| heap := [{| cls := EmptySelector_class; fields := this fitted_a |}];
     log := [] |}.

(** A model that is not fitted and an estimator that scores a above
    b. *)
Definition unfit_model : MLAlgo.t :=
  {| MLAlgo.is_fitted := false; MLAlgo.features := [] |}.

Definition fixed_scores
  : TrainValidIterator.t → option MLAlgo.t
    → option (@Predictions collaborators)
    → Exception + option (@Series collaborators) :=
  λ _ _ _, inr (Some [("a", 2%Z); ("b", 1%Z)]).

Definition fixed_estimator : @ImportanceEstimator collaborators :=
  @ImportanceEstimator__init__ collaborators (Some fixed_scores).

(** An unfit selector configured with [unfit_model], a tuner and
    [fixed_estimator], fitting on holdout. *)
Definition with_unfit_model : @Frame collaborators :=
  {| this := @SelectionPipeline__init__ collaborators None
               (Some (inr (unfit_model, 3))) (Some fixed_estimator) true;
     calls := [] |}.

(** An unfit selector configured with a model fitted on a, b, c and
    [fixed_estimator]. *)
Definition with_fitted_model : @Frame collaborators :=
  {| this := @SelectionPipeline__init__ collaborators None
               (Some (inl {| MLAlgo.is_fitted := true;
                             MLAlgo.features := ["a"; "b"; "c"] |}))
               (Some fixed_estimator) false;
     calls := [] |}.

(** A store with [PredefinedSelector(["a", "d"])] at 0 and a composed
    selector over it at 1. *)
Definition failing_world : @World collaborators :=
  ((s1 <- PredefinedSelector ["a"; "d"] ;;
    ComposedSelector [s1]) empty_world).2.

(** The selector [PredefinedSelector(["a", "d"])] after its [fit] on
    [abc_iterator], which raises: d is not a feature of [abc]. *)
Definition failed_fit : @Frame collaborators :=
  (SelectionPipeline_fit
     (PredefinedSelector_perform_selection (list_to_set ["a"; "d"]))
     (Some abc_iterator) {| this := fresh; calls := [] |}).2.

(** A model fitted on the features of [abc] in another order. *)
Definition stale_model : MLAlgo.t :=
  {| MLAlgo.is_fitted := true; MLAlgo.features := ["a"; "c"; "b"] |}.

(** An unfit selector configured with [stale_model]. *)
Definition with_stale_model : @Frame collaborators :=
  {| this := SelectionPipeline__init__ None (Some (inl stale_model))
                                       None false;
     calls := [] |}.

Import PrimFloat.





End Demo.

(** * Properties *)

Section ReadingState.

Context `{Collaborators}.

Implicit Types (fr : Frame) (w : World) (self : ref).
Implicit Types (tv : TrainValidIterator.t) (dataset : LAMLDataset.t).

(** ** Reading the state of a selector *)

Lemma selected_features_Some fr l :
  _selected_features (this fr) = Some l → selected_features fr = (inr l, fr).
Proof. intros E. unfold selected_features, getattr, gets, bind. by rewrite E. Qed.

Lemma selected_features_None fr :
  _selected_features (this fr) = None →
  selected_features fr = (inl (AssertionError "Should be fitted first"), fr).
Proof. intros E. unfold selected_features, getattr, gets, bind. by rewrite E. Qed.

Lemma in_features_Some fr l :
  _in_features (this fr) = Some l → in_features fr = (inr l, fr).
Proof. intros E. unfold in_features, getattr, gets, bind. by rewrite E. Qed.

Lemma in_features_None fr :
  _in_features (this fr) = None →
  in_features fr = (inl (AssertionError "Should be fitted first"), fr).
Proof. intros E. unfold in_features, getattr, gets, bind. by rewrite E. Qed.

Lemma selected_features_inv fr r fr' :
  selected_features fr = (r, fr') →
  fr' = fr ∧
  match r with
  | inr l => _selected_features (this fr) = Some l
  | inl e => _selected_features (this fr) = None
             ∧ e = AssertionError "Should be fitted first"
  end.
Proof.
  unfold selected_features, getattr, gets, bind.
  destruct (_selected_features (this fr)); cbn; intros [= <- <-]; auto.
Qed.

Lemma in_features_inv fr r fr' :
  in_features fr = (r, fr') →
  fr' = fr ∧
  match r with
  | inr l => _in_features (this fr) = Some l
  | inl e => _in_features (this fr) = None
             ∧ e = AssertionError "Should be fitted first"
  end.
Proof.
  unfold in_features, getattr, gets, bind.
  destruct (_in_features (this fr)); cbn; intros [= <- <-]; auto.
Qed.

Lemma is_fitted_eq fr :
  is_fitted fr = (inr (bool_decide (is_Some (_selected_features (this fr)))), fr).
Proof.
  unfold is_fitted, getattr, gets, bind, ret.
  by destruct (_selected_features (this fr)).
Qed.

(** C8. On a selector whose [fit] has not completed, one that holds
    [None] in [_selected_features], reading [selected_features] and calling
    [select] fail at once with the assertion "Should be fitted first" and
    leave the selector as it was.  Reading [in_features] has a guard of
    its own, on [_in_features]: it fails in the same way while that is
    [None], as [__init__] leaves it, and returns the recorded list once a
    [fit] has recorded it, whether or not that [fit] completed. *)
Theorem unfitted_access_fails fr dataset :
  _selected_features (this fr) = None →
  selected_features fr = (inl (AssertionError "Should be fitted first"), fr)
  ∧ select dataset fr = (inl (AssertionError "Should be fitted first"), fr)
  ∧ in_features fr
    = match _in_features (this fr) with
      | None => (inl (AssertionError "Should be fitted first"), fr)
      | Some inf => (inr inf, fr)
      end.
Proof.
  intros Hsel. split_and!.
  - by apply selected_features_None.
  - unfold select, bind. by rewrite selected_features_None.
  - destruct (_in_features (this fr)) as [inf|] eqn:Hin.
    + by apply in_features_Some.
    + by apply in_features_None.
Qed.

(** C10. On a selector that has never been fit, [dropped_features]
    raises too, but not the assertion of [selected_features] and
    [in_features]: it has no guard and fails with the [TypeError] of
    building a set from [None]. *)
Theorem unfitted_dropped_features_type_error fr :
  _selected_features (this fr) = None →
  dropped_features fr
  = (inl (TypeError "'NoneType' object is not iterable"), fr)
  ∧ dropped_features fr
    ≠ (inl (AssertionError "Should be fitted first"), fr)
  ∧ selected_features fr
    = (inl (AssertionError "Should be fitted first"), fr).
Proof.
  intros Hsel.
  assert (dropped_features fr
          = (inl (TypeError "'NoneType' object is not iterable"), fr)) as E.
  { unfold dropped_features, getattr, gets, bind. by rewrite Hsel. }
  split_and!; [done | by rewrite E | by apply selected_features_None].
Qed.

(** Membership in [set(l)] is membership in [l]. *)
Lemma filter_not_in_set (l inf : list string) :
  filter (λ x, x ∉ (list_to_set l : gset string)) inf
  = filter (λ x, x ∉ l) inf.
Proof. apply list_filter_iff. intros x. by rewrite elem_of_list_to_set. Qed.

(** C7. On a fitted selector, one whose [selected_features] and
    [in_features] can be read, [dropped_features] is the list of the
    features of [in_features] that are not in [selected_features], in the
    order of [in_features]. *)
Theorem dropped_features_spec fr selected inf :
  selected_features fr = (inr selected, fr) →
  in_features fr = (inr inf, fr) →
  dropped_features fr = (inr (filter (λ x, x ∉ selected) inf), fr).
Proof.
  intros [_ Hsel]%selected_features_inv [_ Hin]%in_features_inv.
  unfold dropped_features, getattr, gets, bind, iterate, ret.
  rewrite Hsel. cbv beta iota. rewrite Hin. cbv beta iota.
  by rewrite filter_not_in_set.
Qed.

End ReadingState.

Lemma unfitted_access_fails_witness :
  selected_features Demo.failed_fit
  = (inl (AssertionError "Should be fitted first"), Demo.failed_fit)
  ∧ select Demo.abc Demo.failed_fit
    = (inl (AssertionError "Should be fitted first"), Demo.failed_fit)
  ∧ in_features Demo.failed_fit = (inr ["a"; "b"; "c"], Demo.failed_fit)
  ∧ in_features {| this := Demo.fresh; calls := [] |}
    = (inl (AssertionError "Should be fitted first"),
       {| this := Demo.fresh; calls := [] |}).
Proof.
  pose proof (unfitted_access_fails Demo.failed_fit Demo.abc eq_refl)
    as (Hs & Hd & Hi).
  pose proof (unfitted_access_fails {| this := Demo.fresh; calls := [] |}
                Demo.abc eq_refl) as (_ & _ & Hi0).
  split_and!; [exact Hs | exact Hd | exact Hi | exact Hi0].
Defined.

(** C8 as the specification words it fails on a selector whose [fit]
    raised after the input features were recorded: [fit] has not
    completed and the selector is not fitted, yet [in_features] returns
    the list instead of failing. *)
Lemma unfitted_in_features_returns :
  (SelectionPipeline_fit
     (PredefinedSelector_perform_selection (list_to_set ["a"; "d"]))
     (Some Demo.abc_iterator) {| this := Demo.fresh; calls := [] |})
  = (inl (AssertionError
            "Columns to select not match with dataset features"),
     Demo.failed_fit)
  ∧ is_fitted Demo.failed_fit = (inr false, Demo.failed_fit)
  ∧ in_features Demo.failed_fit = (inr ["a"; "b"; "c"], Demo.failed_fit)
  ∧ in_features Demo.failed_fit
    ≠ (inl (AssertionError "Should be fitted first"), Demo.failed_fit).
Proof. split_and!; [reflexivity | reflexivity | reflexivity | discriminate]. Qed.

Lemma unfitted_dropped_features_type_error_witness :
  dropped_features {| this := Demo.fresh; calls := [] |}
  = (inl (TypeError "'NoneType' object is not iterable"),
     {| this := Demo.fresh; calls := [] |}).
Proof.
  exact (proj1 (unfitted_dropped_features_type_error
                  {| this := Demo.fresh; calls := [] |} eq_refl)).
Defined.

Lemma dropped_features_spec_witness :
  dropped_features Demo.fitted_a = (inr ["b"; "c"], Demo.fitted_a).
Proof.
  exact (dropped_features_spec Demo.fitted_a ["a"] ["a"; "b"; "c"]
           eq_refl eq_refl).
Defined.

(** ** [select] *)

Section Select.

Context `{Collaborators}.

Implicit Types (fr : Frame) (dataset : LAMLDataset.t).

(** The loop of [select] works on a local list: it neither reads nor
    changes the selector. *)
Lemma select_loop_pure (roles : gmap string ColumnRole)
    (sl_set : gset string) (cols acc : list string) :
  ∃ r, ∀ fr,
    for_loop (Σ := Frame) cols acc (select_body roles sl_set) fr = (r, fr).
Proof.
  revert acc. induction cols as [|col cols IH]; intros acc; cbn.
  - by eexists.
  - unfold bind at 1. unfold select_body at 1. unfold bind at 1.
    destruct (roles !! col) as [role|]; cbn; [|by eexists].
    destruct (force_input role); [case_bool_decide|]; cbn; apply IH.
Qed.

(** The loop of [select] fails only on a column without a role. *)
Lemma select_loop_ok (roles : gmap string ColumnRole)
    (sl_set : gset string) (cols acc : list string) fr :
  (∀ col, col ∈ cols → is_Some (roles !! col)) →
  ∃ l, for_loop (Σ := Frame) cols acc (select_body roles sl_set) fr
       = (inr l, fr).
Proof.
  revert acc. induction cols as [|col cols IH]; intros acc Hroles; cbn.
  - by eexists.
  - unfold bind at 1. unfold select_body at 1. unfold bind at 1.
    destruct (Hroles col) as [role ->]; [left|]. cbn.
    assert (∀ c, c ∈ cols → is_Some (roles !! c)) by (intros; apply Hroles; by right).
    destruct (force_input role); [case_bool_decide|]; cbn; by apply IH.
Qed.

(** Slicing returns exactly when the dataset has every requested
    column, and then the view on them. *)
Lemma getitem_cols_inr dataset cols d :
  LAMLDataset.getitem_cols dataset cols = inr d →
  d = LAMLDataset.view dataset cols
  ∧ ∀ col, col ∈ cols → col ∈ LAMLDataset.features dataset.
Proof.
  unfold LAMLDataset.getitem_cols.
  destruct (filter _ cols) as [|c l] eqn:E; [|done].
  intros [= <-]. split; [done|]. intros col Hcol.
  destruct (decide (col ∈ LAMLDataset.features dataset)) as [|Hnot]; [done|].
  assert (col ∈ filter (λ col, col ∉ LAMLDataset.features dataset) cols) as Hf
    by (by apply list_elem_of_filter).
  rewrite E in Hf. by apply elem_of_nil in Hf.
Qed.

Lemma getitem_cols_view dataset cols :
  (∀ col, col ∈ cols → col ∈ LAMLDataset.features dataset) →
  LAMLDataset.getitem_cols dataset cols = inr (LAMLDataset.view dataset cols).
Proof.
  intros Hcols. unfold LAMLDataset.getitem_cols.
  destruct (filter _ cols) as [|c l] eqn:E; [done|].
  assert (c ∈ filter (λ col, col ∉ LAMLDataset.features dataset) cols) as Hf
    by (rewrite E; left).
  apply list_elem_of_filter in Hf as [Hnot Hc]. by destruct Hnot; apply Hcols.
Qed.

(** [select] reads the selector and does not change it; when it returns,
    the dataset is the projection onto [selected_features]. *)
Lemma select_inv dataset fr r fr' :
  select dataset fr = (r, fr') →
  fr' = fr
  ∧ ∀ d, r = inr d →
      ∃ selected, _selected_features (this fr) = Some selected
                  ∧ LAMLDataset.getitem_cols dataset selected = inr d.
Proof.
  unfold select. unfold bind at 1.
  destruct (selected_features fr) as [[e|selected] fr1] eqn:Esel;
    apply selected_features_inv in Esel as [-> Esel].
  { intros [= <- <-]. split; [done|]. intros d [=]. }
  unfold bind at 1.
  match goal with
  | |- context [for_loop ?cols ?acc ?body fr] =>
      destruct (select_loop_pure (LAMLDataset.roles dataset)
                  (list_to_set selected) cols acc) as [r1 ->]
  end.
  destruct r1 as [e|l].
  { intros [= <- <-]. split; [done|]. intros d [=]. }
  unfold bind. rewrite (selected_features_Some fr selected Esel).
  unfold lift. intros [= <- <-]. split; [done|]. intros d Hd. eauto.
Qed.

Lemma select_ok dataset fr selected :
  _selected_features (this fr) = Some selected →
  (∀ col, col ∈ LAMLDataset.features dataset → col ∉ selected →
          is_Some (LAMLDataset.roles dataset !! col)) →
  (∀ col, col ∈ selected → col ∈ LAMLDataset.features dataset) →
  select dataset fr = (inr (LAMLDataset.view dataset selected), fr).
Proof.
  intros Esel Hroles Hcols. unfold select. unfold bind at 1.
  rewrite (selected_features_Some fr selected Esel).
  unfold bind at 1.
  match goal with
  | |- context [for_loop ?cols ?acc ?body fr] =>
      destruct (select_loop_ok (LAMLDataset.roles dataset)
                  (list_to_set selected) cols acc fr) as [l ->]
  end.
  { intros col [Hnot Hin]%list_elem_of_filter. apply Hroles; [done|].
    by rewrite elem_of_list_to_set in Hnot. }
  unfold bind. rewrite (selected_features_Some fr selected Esel).
  unfold lift. by rewrite getitem_cols_view.
Qed.

(** C1. What the code does where the claim fails: [select] computes the
    list with the forced features added and then slices the dataset by
    [self.selected_features], so whenever it returns, the dataset has the
    selected features only; if the dataset has a forced feature outside
    them, that is not the list the specification gives. *)
Theorem select_keeps_only_selected dataset fr selected d :
  _selected_features (this fr) = Some selected →
  select dataset fr = (inr d, fr) →
  LAMLDataset.features d = selected
  ∧ (forced_features dataset selected ≠ [] →
     LAMLDataset.features d ≠ select_spec_features dataset selected).
Proof.
  intros Esel [_ Hd]%select_inv.
  destruct (Hd d eq_refl) as (selected' & Esel' & [-> _]%getitem_cols_inr).
  assert (selected' = selected) as -> by congruence.
  split; [done|]. cbn. unfold select_spec_features. intros Hforced E.
  apply Hforced. apply (inj (app selected)). by rewrite app_nil_r.
Qed.

End Select.

Lemma select_keeps_only_selected_witness :
  select Demo.abc Demo.fitted_a
  = (inr (LAMLDataset.view Demo.abc ["a"]), Demo.fitted_a)
  ∧ LAMLDataset.features (LAMLDataset.view Demo.abc ["a"]) = ["a"]
  ∧ select_spec_features Demo.abc ["a"] = ["a"; "b"]
  ∧ LAMLDataset.features (LAMLDataset.view Demo.abc ["a"])
    ≠ select_spec_features Demo.abc ["a"].
Proof.
  assert (select Demo.abc Demo.fitted_a
          = (inr (LAMLDataset.view Demo.abc ["a"]), Demo.fitted_a))
    as E by (vm_compute; reflexivity).
  assert (forced_features Demo.abc ["a"] ≠ []) as Hforced
    by (vm_compute; discriminate).
  pose proof (select_keeps_only_selected Demo.abc Demo.fitted_a ["a"] _
                eq_refl E) as [Hfeat Hne].
  split_and!; [exact E | exact Hfeat | vm_compute; reflexivity
              | exact (Hne Hforced)].
Defined.

(** ** Mapped importances *)

Section Importances.

Context `{Collaborators}.

Implicit Types (fr : Frame) (s raw : Series) (row : string * score).








(** When the name mapping returns, it has traced every label of [raw], and
    relabelling the rows of [raw] groups the scores by the input feature
    their label maps to. *)
Lemma map_pipeline_names_inr inf raw mapped :
  map_pipeline_names inf (Series_index raw) = inr mapped →
  length (Series_values raw) = length mapped
  ∧ Series_index (zip mapped (Series_values raw)) = mapped
  ∧ ∀ name, group_values name (zip mapped (Series_values raw))
            = scores_mapped_to inf name raw.
Proof.
  unfold Series_index, Series_values, group_values, scores_mapped_to.
  revert mapped. induction raw as [|[k v] raw IH]; intros mapped; cbn.
  { by intros [= <-]. }
  destruct (map_pipeline_name inf k) as [e|i] eqn:Ek; [done|].
  destruct (map_pipeline_names inf raw.*1) as [e|l] eqn:El; [done|].
  intros [= <-]. destruct (IH l eq_refl) as (Hlen & Hidx & Hgroup).
  cbn. split_and!; [by f_equal | by f_equal |].
  intros name. destruct (decide (i = name)) as [->|Hne].
  - rewrite decide_True by done. cbn. by rewrite Hgroup.
  - rewrite decide_False by congruence. apply Hgroup.
Qed.

(** What [map_raw_feature_importances] stores when the names are
    traced. *)
Lemma map_raw_feature_importances_eq fr inf raw mapped :
  _in_features (this fr) = Some inf →
  map_pipeline_names inf (Series_index raw) = inr mapped →
  map_raw_feature_importances raw fr
  = (inr tt,
     {| this := set_mapped_importances
                  (Some (sort_values_desc
                           (groupby_sum (zip mapped (Series_values raw)))))
                  (this fr);
        calls := calls fr |}).
Proof.
  intros Hin Hmap. unfold map_raw_feature_importances. unfold bind at 1.
  rewrite (in_features_Some fr inf Hin). unfold bind at 1, lift at 1.
  rewrite Hmap. unfold bind, lift, Series_new.
  destruct (map_pipeline_names_inr inf raw mapped Hmap) as (Hlen & _).
  by rewrite decide_True.
Qed.

(** A name that is not traced: the exception of the mapping, nothing
    stored. *)
Lemma map_raw_feature_importances_untraced fr inf raw e :
  _in_features (this fr) = Some inf →
  map_pipeline_names inf (Series_index raw) = inl e →
  map_raw_feature_importances raw fr = (inl e, fr).
Proof.
  intros Hin Hmap. unfold map_raw_feature_importances. unfold bind at 1.
  rewrite (in_features_Some fr inf Hin). unfold bind at 1, lift at 1.
  by rewrite Hmap.
Qed.



End Importances.


(** ** [SelectionPipeline.fit] *)

Section Fit.

Context `{Collaborators}.

Implicit Types (fr : Frame) (tv : TrainValidIterator.t).
Implicit Types (perform : TrainValidIterator.t → Method unit).

(** A fitted selector is left alone by [fit]. *)
Lemma SelectionPipeline_fit_fitted perform train_valid fr :
  is_Some (_selected_features (this fr)) →
  SelectionPipeline_fit perform train_valid fr = (inr tt, fr).
Proof.
  intros [l Hl]. unfold SelectionPipeline_fit. unfold bind at 1.
  rewrite is_fitted_eq, Hl. done.
Qed.

Local Arguments tuning_calls : simpl never.

Lemma tuning_calls_app (l1 l2 : list Call) :
  tuning_calls (l1 ++ l2) = tuning_calls l1 + tuning_calls l2.
Proof. unfold tuning_calls. by rewrite filter_app, length_app. Qed.

Lemma tuning_calls_before_model (self : Fields) :
  tuning_calls (calls_before_model self) = 0.
Proof.
  unfold calls_before_model.
  by destruct (_fit_on_holdout self), (features_pipeline self).
Qed.

(** Counts the tuner runs in a log built by appending calls. *)
Local Ltac count_calls :=
  rewrite ?tuning_calls_app;
  repeat match goal with
         | |- context [tuning_calls [?c]] =>
             let n := eval vm_compute in (tuning_calls [c]) in
             change (tuning_calls [c]) with n
         end;
  lia.

(** Runs the monadic steps in the goal. *)
Local Ltac run_method :=
  unfold bind, ret, raise, gets, modify, lift, getattr, setattr, call,
    assert, nonnull;
  cbn.

(** Takes a frame apart so that [fit] computes on it. *)
Local Ltac open_frame fr :=
  destruct fr as [[pipeline holdout algo self_tuner empty estimator
                   selected inf importances] log0];
  cbn [this calls features_pipeline _fit_on_holdout ml_algo tuner
       _empty_algo imp_estimator _selected_features _in_features
       mapped_importances] in *;
  subst.

(** C6. In [fit] on an unfit selector with a model configured: if the
    model is already fit and its feature list differs, as an ordered
    sequence, from that of the iterator [fit] holds at that point, [fit]
    fails with the assertion "Features in feated MLAlgo should match
    exactly", having recorded the input features only; if the lists are
    equal the check passes and, with no estimator configured, [fit]
    continues with [perform_selection]; and the tuner is run during [fit]
    when the model is not yet fit, and never when it is. *)
Theorem fit_checks_fitted_model perform fr tv m :
  (∀ tv' fr', calls (perform tv' fr').2 = calls fr') →
  _selected_features (this fr) = None →
  ml_algo (this fr) = Some m →
  (MLAlgo.is_fitted m = true →
   MLAlgo.features m
   ≠ TrainValidIterator.features (iterator_at_model (this fr) tv) →
   SelectionPipeline_fit perform (Some tv) fr
   = (inl (AssertionError "Features in feated MLAlgo should match exactly"),
      frame_at_model fr tv))
  ∧ (MLAlgo.is_fitted m = true →
     MLAlgo.features m
     = TrainValidIterator.features (iterator_at_model (this fr) tv) →
     imp_estimator (this fr) = None →
     SelectionPipeline_fit perform (Some tv) fr
     = perform (iterator_at_model (this fr) tv) (frame_at_model fr tv))
  ∧ (MLAlgo.is_fitted m = true →
     tuning_calls (calls (SelectionPipeline_fit perform (Some tv) fr).2)
     = tuning_calls (calls fr))
  ∧ (MLAlgo.is_fitted m = false →
     is_Some (tuner (this fr)) →
     tuning_calls (calls (SelectionPipeline_fit perform (Some tv) fr).2)
     = S (tuning_calls (calls fr))).
Proof.
  intros Hperform Hsel Halgo. open_frame fr.
  unfold frame_at_model, iterator_at_model, iterator_at_input,
    calls_before_model.
  cbn [this calls features_pipeline _fit_on_holdout].
  split_and!.
  - intros Hfit Hne.
    destruct holdout, pipeline as [p|]; cbn;
      rewrite Hfit; cbn; rewrite bool_decide_false by done; cbn;
      rewrite ?app_nil_r, <- ?app_assoc; done.
  - intros Hfit Heq ->.
    destruct holdout, pipeline as [p|]; cbn;
      rewrite Hfit; cbn; rewrite bool_decide_true by done; cbn;
      rewrite ?app_nil_r, <- ?app_assoc; done.
  - intros Hfit.
    destruct holdout, pipeline as [p|]; cbn; rewrite Hfit; cbn;
      case_bool_decide; cbn;
      try count_calls;
      (destruct estimator as [est|];
       [ unfold ImportanceEstimator_fit;
         destruct (fit_override est) as [f|]; run_method;
         [ match goal with
           | |- context [f ?a ?b ?c] => destruct (f a b c)
           end |] |]);
      run_method; rewrite ?Hperform; cbn; count_calls.
  - intros Hfit [t ->].
    destruct holdout, pipeline as [p|]; cbn; rewrite Hfit; run_method;
      match goal with
      | |- context [tune_and_fit_predict ?a ?b ?c] =>
          destruct (tune_and_fit_predict a b c) as [m' preds]
      end; cbn;
      (destruct estimator as [est|];
       [ unfold ImportanceEstimator_fit;
         destruct (fit_override est) as [f|]; run_method;
         [ match goal with
           | |- context [f ?a ?b ?c] => destruct (f a b c)
           end |] |]);
      run_method; rewrite ?Hperform; cbn; count_calls.
Qed.

End Fit.

Lemma fit_checks_fitted_model_witness :
  SelectionPipeline_fit EmptySelector_perform_selection
    (Some Demo.abc_iterator) Demo.with_stale_model
  = (inl (AssertionError "Features in feated MLAlgo should match exactly"),
     frame_at_model Demo.with_stale_model Demo.abc_iterator).
Proof.
  refine (proj1 (fit_checks_fitted_model EmptySelector_perform_selection
                   Demo.with_stale_model Demo.abc_iterator Demo.stale_model
                   _ eq_refl eq_refl) eq_refl _).
  - intros tv' fr'. reflexivity.
  - vm_compute. discriminate.
Defined.

(** ** Objects in the store *)

Section Store.

Context `{Collaborators}.

Implicit Types (w : World) (self : ref) (o : Obj) (fr : Frame).

Lemma on_self_eq {A} self (m : Method A) w o :
  heap w !! self = Some o →
  on_self self m w
  = ((m {| this := fields o; calls := log w |}).1,
     {| heap := <[self := {| cls := cls o;
                             fields := this (m {| this := fields o;
                                                  calls := log w |}).2 |}]>
                  (heap w);
        log := calls (m {| this := fields o; calls := log w |}).2 |}).
Proof.
  intros Ho. unfold on_self. rewrite Ho.
  by destruct (m {| this := fields o; calls := log w |}).
Qed.

(** A method that leaves the frame as it is leaves the store as it is. *)
Lemma on_self_pure {A} self (m : Method A) w o r :
  heap w !! self = Some o →
  m {| this := fields o; calls := log w |}
  = (r, {| this := fields o; calls := log w |}) →
  on_self self m w = (r, w).
Proof.
  intros Ho Hm. rewrite (on_self_eq self m w o Ho), Hm. cbn.
  destruct o, w. cbn in *. by rewrite list_insert_id.
Qed.

Lemma on_self_dangling {A} self (m : Method A) w :
  heap w !! self = None → on_self self m w = (inl ReferenceError, w).
Proof. intros Ho. unfold on_self. by rewrite Ho. Qed.

Lemma class_of_eq self w o :
  heap w !! self = Some o → class_of self w = (inr (cls o), w).
Proof. intros Ho. unfold class_of. by rewrite Ho. Qed.

(** Setting an attribute replaces the object and nothing else. *)
Lemma on_self_setattr self upd w o :
  heap w !! self = Some o →
  on_self self (setattr upd) w
  = (inr tt, {| heap := <[self := {| cls := cls o;
                                      fields := upd (fields o) |}]> (heap w);
                log := log w |}).
Proof. intros Ho. by rewrite (on_self_eq _ _ _ _ Ho). Qed.

(** The object a constructor makes is the last of the store. *)
Lemma new_eq (c : SelectorClass) (f : Fields) w :
  new c f w
  = (inr (length (heap w)),
     {| heap := heap w ++ [{| cls := c; fields := f |}]; log := log w |}).
Proof. done. Qed.

Lemma lookup_new (l : list Obj) o : (l ++ [o])%list !! length l = Some o.
Proof. by rewrite list_lookup_middle. Qed.

Lemma insert_new (l : list Obj) o o' :
  <[length l := o']> (l ++ [o])%list = (l ++ [o'])%list.
Proof. by rewrite insert_app_r_alt, Nat.sub_diag. Qed.

End Store.

(** ** [PredefinedSelector] *)

(** [len(A) == len(A.intersection(B))] says that [A] is contained in
    [B]. *)
Lemma size_intersection_eq (X Y : gset string) :
  size X = size (X ∩ Y) ↔ X ⊆ Y.
Proof.
  split.
  - intros E. assert (X ∩ Y ≡ X) as Heq.
    { apply set_subseteq_size_equiv; [|lia].
      by intros x [? _]%elem_of_intersection. }
    intros x Hx. apply Heq in Hx. by apply elem_of_intersection in Hx as [_ ?].
  - intros Hsub. f_equal. apply set_eq. intros x.
    rewrite elem_of_intersection. split; [|by intros [? _]].
    intros Hx. split; [done|]. by apply Hsub.
Qed.

Section Predefined.

Context `{Collaborators}.

Implicit Types (w : World) (self : ref) (fr : Frame).
Implicit Types (tv : TrainValidIterator.t).

(** [fit] on a selector built without pipeline, model or estimator
    records the input features and selects. *)
Lemma SelectionPipeline_fit_plain
    (perform : TrainValidIterator.t → Method unit) tv (log0 : list Call) :
  SelectionPipeline_fit perform (Some tv)
    {| this := SelectionPipeline__init__ None None None false;
       calls := log0 |}
  = perform tv
      {| this := set__in_features (Some (TrainValidIterator.features tv))
                   (SelectionPipeline__init__ None None None false);
         calls := log0 |}.
Proof. reflexivity. Qed.

Lemma PredefinedSelector_perform_selection_eq
    (columns_to_select : gset string) tv fr :
  PredefinedSelector_perform_selection columns_to_select tv fr
  = if bool_decide (columns_to_select
                    ⊆ list_to_set (TrainValidIterator.features tv))
    then (inr tt,
          {| this := set__selected_features
                       (Some (elements columns_to_select)) (this fr);
             calls := calls fr |})
    else (inl (AssertionError
                 "Columns to select not match with dataset features"), fr).
Proof.
  unfold PredefinedSelector_perform_selection, bind, assert.
  rewrite (bool_decide_ext _ _ (size_intersection_eq _ _)).
  by case_bool_decide.
Qed.

(** C4. [PredefinedSelector(columns).fit(train_valid)] succeeds exactly
    when the set of the configured columns is contained in the set of the
    iterator's features; otherwise it fails with the assertion "Columns
    to select not match with dataset features"; on success
    [selected_features], as a set, is the configured column set. *)
Theorem predefined_fit_iff limit w (columns : list string) tv :
  ∃ self w1 r w2,
    PredefinedSelector columns w = (inr self, w1)
    ∧ fit (S limit) self (Some tv) w1 = (r, w2)
    ∧ (r = inr tt
       ↔ (list_to_set columns : gset string)
         ⊆ list_to_set (TrainValidIterator.features tv))
    ∧ (r = inr tt
       ∨ r = inl (AssertionError
                    "Columns to select not match with dataset features"))
    ∧ (r = inr tt →
       ∃ selected,
         on_self self selected_features w2 = (inr selected, w2)
         ∧ (list_to_set selected : gset string) = list_to_set columns).
Proof.
  unfold PredefinedSelector. rewrite new_eq.
  set (fresh := SelectionPipeline__init__ None None None false).
  set (c := PredefinedSelector_class (list_to_set columns)).
  set (w1 := {| heap := heap w ++ [{| cls := c; fields := fresh |}];
                log := log w |}).
  assert (heap w1 !! length (heap w) = Some {| cls := c; fields := fresh |})
    as Hself by apply lookup_new.
  assert (fit (S limit) (length (heap w)) (Some tv) w1
          = ((PredefinedSelector_perform_selection (list_to_set columns) tv
                {| this := set__in_features
                             (Some (TrainValidIterator.features tv)) fresh;
                   calls := log w |}).1,
             {| heap := heap w
                        ++ [{| cls := c;
                               fields :=
                                 this (PredefinedSelector_perform_selection
                                         (list_to_set columns) tv
                                         {| this := set__in_features
                                              (Some (TrainValidIterator.features tv))
                                              fresh;
                                            calls := log w |}).2 |}];
                log := log w |})) as Hfit.
  { cbn [fit]. unfold bind at 1.
    rewrite (class_of_eq _ _ _ Hself). cbn [cls c].
    rewrite (on_self_eq _ _ _ _ Hself). subst fresh c w1. cbn [fields heap log].
    rewrite SelectionPipeline_fit_plain,
      PredefinedSelector_perform_selection_eq.
    rewrite insert_new. by case_bool_decide. }
  rewrite PredefinedSelector_perform_selection_eq in Hfit.
  destruct (decide ((list_to_set columns : gset string)
                    ⊆ list_to_set (TrainValidIterator.features tv)))
    as [Hsub|Hsub].
  - rewrite bool_decide_true in Hfit by done. cbn [fst snd this calls] in Hfit.
    eexists _, _, _, _. split; [reflexivity|]. split; [exact Hfit|].
    split_and!; [done | by left |].
    intros _. eexists. split.
    + eapply on_self_pure; [apply lookup_new|].
      by apply selected_features_Some.
    + apply set_eq. intros x. by rewrite elem_of_list_to_set, elem_of_elements.
  - rewrite bool_decide_false in Hfit by done. cbn [fst snd this calls] in Hfit.
    eexists _, _, _, _. split; [reflexivity|]. split; [exact Hfit|].
    split_and!; [split; [done|] | by right | done].
    intros Hsub'. by destruct Hsub.
Qed.

End Predefined.

(** ** Stores that keep their fitted objects *)

Section Keeping.

Context `{Collaborators}.

Implicit Types (w : World) (self : ref) (o : Obj) (fr : Frame).
Implicit Types (tv : TrainValidIterator.t) (selectors : list ref).

Lemma bind_ok {Σ A B} (m : St Σ A) (k : A → St Σ B) s b s' :
  bind m k s = (inr b, s') →
  ∃ a s1, m s = (inr a, s1) ∧ k a s1 = (inr b, s').
Proof. unfold bind. destruct (m s) as [[e|a] s1]; [done|]. eauto. Qed.

Lemma is_fitted_reads_only : reads_only is_fitted.
Proof. intros fr r fr'. rewrite is_fitted_eq. by intros [= _ <-]. Qed.

Lemma selected_features_reads_only : reads_only selected_features.
Proof. intros fr r fr' E. by apply selected_features_inv in E as [-> _]. Qed.

Lemma in_features_reads_only : reads_only in_features.
Proof. intros fr r fr' E. by apply in_features_inv in E as [-> _]. Qed.

Lemma select_reads_only dataset : reads_only (select dataset).
Proof. intros fr r fr' E. by apply select_inv in E as [-> _]. Qed.

Lemma getattr_reads_only {A} (attr : Fields → A) : reads_only (getattr attr).
Proof. intros fr r fr'. unfold getattr, gets. by intros [= _ <-]. Qed.

(** A reading method, run on an object of the store, returns what it
    returns on the object and leaves the store as it is. *)
Lemma on_self_reads_only {A} self (m : Method A) w a w' :
  reads_only m →
  on_self self m w = (inr a, w') →
  w' = w
  ∧ ∃ o, heap w !! self = Some o
         ∧ m {| this := fields o; calls := log w |}
           = (inr a, {| this := fields o; calls := log w |}).
Proof.
  intros Hm. unfold on_self. destruct (heap w !! self) as [o|] eqn:Ho; [|done].
  destruct (m {| this := fields o; calls := log w |}) as [r fr] eqn:Em.
  pose proof (Hm _ _ _ Em) as ->. intros [= -> <-]. cbn. split; [|eauto].
  destruct w, o. cbn in *. by rewrite list_insert_id.
Qed.

Lemma keeps_fitted_refl (self : option ref) w : keeps_fitted_except self w w.
Proof. split; [done|]. intros j o Ho. eauto. Qed.

Lemma keeps_fitted_trans (self : option ref) w1 w2 w3 :
  keeps_fitted_except self w1 w2 → keeps_fitted_except self w2 w3 →
  keeps_fitted_except self w1 w3.
Proof.
  intros [Hlen12 H12] [Hlen23 H23]. split; [congruence|]. intros j o Ho.
  destruct (H12 j o Ho) as (o2 & Ho2 & Hc2 & Hk2).
  destruct (H23 j o2 Ho2) as (o3 & Ho3 & Hc3 & Hk3).
  exists o3. split_and!; [done | congruence |].
  intros Hj Hfit. rewrite <- (Hk2 Hj Hfit). apply Hk3; [done|].
  by rewrite (Hk2 Hj Hfit).
Qed.

Lemma keeps_fitted_weaken (self : option ref) w w' :
  keeps_fitted_except None w w' → keeps_fitted_except self w w'.
Proof.
  intros [Hlen Hk]. split; [done|]. intros j o Ho.
  destruct (Hk j o Ho) as (o' & Ho' & Hc & Hf).
  exists o'. split_and!; [done..|]. intros _. by apply Hf.
Qed.

(** Fitting an unfit object touches no fitted object at all. *)
Lemma keeps_fitted_unfitted self w w' :
  (∀ o, heap w !! self = Some o → ¬ fitted o) →
  keeps_fitted_except (Some self) w w' → keeps_fitted_except None w w'.
Proof.
  intros Hunfit [Hlen Hk]. split; [done|]. intros j o Ho.
  destruct (Hk j o Ho) as (o' & Ho' & Hc & Hf).
  exists o'. split_and!; [done..|]. intros _ Hfit. apply Hf; [|done].
  intros [= ->]. by apply (Hunfit o).
Qed.

(** A method of [self] replaces [self] only. *)
Lemma on_self_keeps {A} self (m : Method A) w r w' :
  on_self self m w = (r, w') → keeps_fitted_except (Some self) w w'.
Proof.
  unfold on_self. destruct (heap w !! self) as [o|] eqn:Ho.
  - destruct (m _) as [r' fr]. intros [= _ <-].
    split; [cbn; by rewrite length_insert|]. intros j oj Hj. cbn.
    destruct (decide (j = self)) as [->|Hne].
    + rewrite list_lookup_insert_eq by (by eapply lookup_lt_Some).
      eexists. split_and!; [done | cbn; congruence | done].
    + rewrite list_lookup_insert_ne by done. eauto.
  - intros [= _ <-]. apply keeps_fitted_refl.
Qed.

(** What [select] returns depends on the attributes alone. *)
Lemma select_reads_fields dataset (f : Fields) :
  ∃ r, ∀ log0, select dataset {| this := f; calls := log0 |}
               = (r, {| this := f; calls := log0 |}).
Proof.
  unfold select. destruct (_selected_features f) as [selected|] eqn:Hsel.
  - destruct (select_loop_pure (LAMLDataset.roles dataset)
                (list_to_set selected)
                (filter (λ x, x ∉ (list_to_set selected : gset string))
                        (LAMLDataset.features dataset))
                selected) as [rl Hl].
    destruct rl as [e|l].
    + exists (inl e). intros log0. unfold bind at 1.
      rewrite (selected_features_Some _ selected) by done.
      unfold bind at 1. by rewrite Hl.
    + eexists. intros log0. unfold bind at 1.
      rewrite (selected_features_Some _ selected) by done.
      unfold bind at 1. rewrite Hl. unfold bind.
      rewrite (selected_features_Some _ selected) by done. reflexivity.
  - eexists. intros log0. unfold bind at 1.
    rewrite selected_features_None by done. reflexivity.
Qed.

End Keeping.

(** ** [ComposedSelector] *)

Section Composed.

Context `{Collaborators}.

Implicit Types (w : World) (self : ref) (o : Obj) (fr : Frame).
Implicit Types (tv : TrainValidIterator.t) (selectors : list ref).
Implicit Types (fit : ref → option TrainValidIterator.t → St World unit).

(** When [apply_selector] returns, the selector is fitted, the iterator
    is the given one restricted by the selector's [select], and no fitted
    object of the store was touched. *)
Lemma apply_selector_ok fit tv c w tv' w' :
  (∀ c0 tvo w0 w0', fit c0 tvo w0 = (inr tt, w0') →
                    keeps_fitted_except (Some c0) w0 w0') →
  apply_selector fit tv c w = (inr tv', w') →
  keeps_fitted_except None w w'
  ∧ ∃ o1 d,
      heap w' !! c = Some o1
      ∧ fitted o1
      ∧ (∀ log0, select (TrainValidIterator.train tv)
                   {| this := fields o1; calls := log0 |}
                 = (inr d, {| this := fields o1; calls := log0 |}))
      ∧ tv' = TrainValidIterator.with_train tv d.
Proof.
  intros Hfit Happly. unfold apply_selector in Happly.
  apply bind_ok in Happly as (b & w0 & Hb & Happly).
  apply (on_self_reads_only _ _ _ _ _ is_fitted_reads_only) in Hb
    as (-> & o & Ho & Hb).
  rewrite is_fitted_eq in Hb. injection Hb as Hb.
  apply bind_ok in Happly as ([] & w1 & Hstep & Happly).
  apply bind_ok in Happly as (d & w2 & Hsel & Hret).
  apply (on_self_reads_only _ _ _ _ _ (select_reads_only _)) in Hsel
    as (-> & o1 & Ho1 & Hsel).
  injection Hret as <- <-.
  split.
  - destruct b.
    + injection Hstep as <-. apply keeps_fitted_refl.
    + apply (keeps_fitted_unfitted c); [|by eapply Hfit].
      intros o' Ho' Hfitted. rewrite Ho in Ho'. injection Ho' as <-.
      by apply bool_decide_eq_false in Hb.
  - exists o1, d. split_and!; [done | | | done].
    + apply select_inv in Hsel as [_ Hd].
      destruct (Hd d eq_refl) as (selected & Hs & _). by exists selected.
    + destruct (select_reads_fields (TrainValidIterator.train tv) (fields o1))
        as [r Hr].
      rewrite Hr in Hsel. injection Hsel as ->. exact Hr.
Qed.

(** On a fitted selector [apply_selector] only restricts the iterator. *)
Lemma apply_selector_fitted fit tv c w o1 d :
  heap w !! c = Some o1 →
  select (TrainValidIterator.train tv) {| this := fields o1; calls := log w |}
  = (inr d, {| this := fields o1; calls := log w |}) →
  apply_selector fit tv c w = (inr (TrainValidIterator.with_train tv d), w).
Proof.
  intros Ho1 Hsel. unfold apply_selector.
  pose proof Hsel as [_ Hd]%select_inv.
  destruct (Hd d eq_refl) as (selected & Hs & _). cbn in Hs.
  unfold bind at 1.
  rewrite (on_self_pure c is_fitted w o1 (inr true) Ho1)
    by (by rewrite is_fitted_eq; cbn; rewrite Hs).
  unfold bind at 1. cbn. unfold bind.
  by rewrite (on_self_pure c _ w o1 (inr d) Ho1 Hsel).
Qed.

(** The loop of [ComposedSelector.fit]: when it returns, no fitted object
    was touched, and run again on a store holding the same children it
    returns the same iterator and changes nothing. *)
Lemma ComposedSelector_fit_loop fit selectors tvo w tvo' w' :
  (∀ c0 tvo0 w0 w0', fit c0 tvo0 w0 = (inr tt, w0') →
                     keeps_fitted_except (Some c0) w0 w0') →
  for_loop selectors tvo (ComposedSelector_fit_body fit) w = (inr tvo', w') →
  keeps_fitted_except None w w'
  ∧ ∀ fit2 w2,
      (∀ c, c ∈ selectors → heap w2 !! c = heap w' !! c) →
      for_loop selectors tvo (ComposedSelector_fit_body fit2) w2
      = (inr tvo', w2).
Proof.
  intros Hfit. revert tvo w.
  induction selectors as [|c rest IH]; intros tvo w Hloop.
  - injection Hloop as <- <-. split; [apply keeps_fitted_refl | done].
  - cbn [for_loop] in Hloop.
    apply bind_ok in Hloop as (tvo1 & w1 & Hbody & Hrest).
    unfold ComposedSelector_fit_body in Hbody.
    apply bind_ok in Hbody as (tv & w0 & Htv & Hbody).
    destruct tvo as [tv0|]; [|done]. injection Htv as -> ->.
    apply bind_ok in Hbody as (tv1 & w1' & Happly & Hret).
    injection Hret as <- <-.
    apply (apply_selector_ok _ _ _ _ _ _ Hfit) in Happly
      as (Hkeep1 & o1 & d & Ho1 & Hfitted1 & Hsel1 & ->).
    destruct (IH _ _ Hrest) as [Hkeep2 Hagain].
    split; [by eapply keeps_fitted_trans|].
    intros fit2 w2 Hsame. cbn [for_loop]. unfold bind at 1.
    unfold ComposedSelector_fit_body at 1. unfold bind at 1. cbn.
    destruct (proj2 Hkeep2 c o1 Ho1) as (o1' & Ho1' & _ & Heq1).
    rewrite (Heq1 ltac:(done) Hfitted1) in Ho1'.
    unfold bind at 1.
    rewrite (apply_selector_fitted fit2 tv c w2 o1 d).
    + cbn. apply Hagain. intros c' Hc'. apply Hsame. by right.
    + rewrite Hsame by left. done.
    + apply Hsel1.
Qed.

(** What a [ComposedSelector.fit] that returns has done: the loop, then
    the input features of the first child and the selected features of
    the last child stored in [self]. *)
Lemma ComposedSelector_fit_ok fit self selectors tvo w w1 :
  ComposedSelector_fit fit self selectors tvo w = (inr tt, w1) →
  ∃ tvo' wl first last_selector o_first inf o_self o_last selected,
    for_loop selectors tvo (ComposedSelector_fit_body fit) w = (inr tvo', wl)
    ∧ head selectors = Some first
    ∧ last selectors = Some last_selector
    ∧ heap wl !! first = Some o_first
    ∧ _in_features (fields o_first) = Some inf
    ∧ heap wl !! self = Some o_self
    ∧ <[self := {| cls := cls o_self;
                   fields := set__in_features (Some inf) (fields o_self) |}]>
        (heap wl) !! last_selector = Some o_last
    ∧ _selected_features (fields o_last) = Some selected
    ∧ w1 = {| heap := <[self := {| cls := cls o_self;
                                   fields := set__selected_features
                                               (Some selected)
                                               (set__in_features (Some inf)
                                                  (fields o_self)) |}]>
                        (heap wl);
              log := log wl |}.
Proof.
  unfold ComposedSelector_fit. intros Hfit.
  apply bind_ok in Hfit as (tvo' & wl & Hloop & Hfit).
  apply bind_ok in Hfit as (first1 & wl1 & Hfirst & Hfit).
  unfold getitem_first in Hfirst.
  destruct (head selectors) as [first|] eqn:Hhead; [|done].
  injection Hfirst as <- <-.
  apply bind_ok in Hfit as (inf & wl' & Hin & Hfit).
  apply (on_self_reads_only _ _ _ _ _ in_features_reads_only) in Hin
    as (-> & o_first & Ho_first & Hin).
  apply in_features_inv in Hin as [_ Hin]. cbn in Hin.
  apply bind_ok in Hfit as ([] & wa & Hset & Hfit).
  destruct (heap wl !! self) as [o_self|] eqn:Ho_self;
    [|by rewrite on_self_dangling in Hset].
  rewrite (on_self_setattr _ _ _ _ Ho_self) in Hset. injection Hset as <-.
  unfold ComposedSelector_perform_selection in Hfit.
  apply bind_ok in Hfit as (last1 & wa1 & Hlast & Hfit).
  unfold getitem_last in Hlast.
  destruct (last selectors) as [last_selector|] eqn:Hl; [|done].
  injection Hlast as <- <-.
  apply bind_ok in Hfit as (selected & wa' & Hsel & Hfit).
  apply (on_self_reads_only _ _ _ _ _ selected_features_reads_only) in Hsel
    as (-> & o_last & Ho_last & Hsel).
  apply selected_features_inv in Hsel as [_ Hsel]. cbn in Hsel, Ho_last.
  assert (self < length (heap wl)) as Hlt by (by eapply lookup_lt_Some).
  rewrite (on_self_setattr _ _ _
             {| cls := cls o_self;
                fields := set__in_features (Some inf) (fields o_self) |})
    in Hfit by (cbn; by rewrite list_lookup_insert_eq).
  injection Hfit as <-. cbn.
  exists tvo', wl, first, last_selector, o_first, inf, o_self, o_last, selected.
  split_and!; try done. by rewrite list_insert_insert_eq.
Qed.

(** C9. Whatever the iterator, [fit] on a composed selector built from
    an empty sequence raises the [IndexError] of [self.selectors[0]]; the
    selector stays unfit. *)
Theorem composed_empty_fit_raises limit w
    (train_valid : option TrainValidIterator.t) :
  ∃ self w1,
    ComposedSelector [] w = (inr self, w1)
    ∧ fit (S limit) self train_valid w1
      = (inl (IndexError "list index out of range"), w1)
    ∧ on_self self is_fitted w1 = (inr false, w1).
Proof.
  unfold ComposedSelector. rewrite new_eq.
  eexists _, _. split; [reflexivity|].
  match goal with
  | |- context [fit _ _ _ ?w1] =>
      assert (heap w1 !! length (heap w)
              = Some {| cls := ComposedSelector_class [];
                        fields := SelectionPipeline__init__ None None None
                                                            false |})
        as Hself by apply lookup_new
  end.
  split.
  - cbn [fit]. unfold bind at 1. by rewrite (class_of_eq _ _ _ Hself).
  - eapply on_self_pure; [exact Hself|]. done.
Qed.

(** A [fit] that returns has kept every object in place and touched no
    fitted object other than [self]. *)
Lemma fit_keeps limit self tvo w w' :
  fit limit self tvo w = (inr tt, w') → keeps_fitted_except (Some self) w w'.
Proof.
  revert self tvo w w'.
  induction limit as [|limit IH]; intros self tvo w w' Hfit; [done|].
  cbn [fit] in Hfit. apply bind_ok in Hfit as (c & w0 & Hc & Hfit).
  unfold class_of in Hc. destruct (heap w !! self) as [o|] eqn:Ho; [|done].
  injection Hc as <- <-.
  destruct (cls o) as [| |columns|selectors|perform] eqn:Hcls;
    try (by eapply on_self_keeps).
  apply ComposedSelector_fit_ok in Hfit
    as (tvo' & wl & first & last_selector & o_first & inf & o_self & o_last
        & selected & Hloop & _ & _ & _ & _ & Ho_self & _ & _ & ->).
  destruct (ComposedSelector_fit_loop _ _ _ _ _ _ IH Hloop)
    as [[Hlen Hkeep] _].
  split; [cbn; by rewrite length_insert|].
  intros j oj Hj. destruct (Hkeep j oj Hj) as (oj' & Hj' & Hc' & Hf'). cbn.
  destruct (decide (j = self)) as [->|Hne].
  - rewrite list_lookup_insert_eq by (by eapply lookup_lt_Some).
    eexists. split_and!; [done | cbn; congruence | done].
  - rewrite list_lookup_insert_ne by done.
    exists oj'. split_and!; [done..|]. intros _. by apply Hf'.
Qed.

(** A composed selector built over selectors of the store is not one of
    its own children, and no [fit] that returns changes that. *)
Lemma ComposedSelector_not_own_child selectors w :
  (∀ c, c ∈ selectors → c < length (heap w)) →
  not_own_child (ComposedSelector selectors w).2 (length (heap w)).
Proof.
  intros Hrefs o selectors' Ho Hcls Hin. cbn in Ho.
  rewrite lookup_new in Ho. injection Ho as <-. injection Hcls as <-.
  apply Hrefs in Hin. lia.
Qed.

Lemma fit_keeps_not_own_child limit c tvo w w' self :
  fit limit c tvo w = (inr tt, w') →
  not_own_child w self → not_own_child w' self.
Proof.
  intros [Hlen Hkeep]%fit_keeps Hchild o' selectors Ho' Hcls'.
  assert (is_Some (heap w !! self)) as [o Ho].
  { apply lookup_lt_is_Some. rewrite <- Hlen. by eapply lookup_lt_Some. }
  destruct (Hkeep self o Ho) as (o'' & Ho'' & Hcls'' & _).
  apply (Hchild o selectors Ho). congruence.
Qed.

(** C2. After [ComposedSelector([S1, ..., Sn]).fit(train_valid)] has
    returned, the sequence has a first child S1 and a last child Sn, the
    composed selector's [in_features] is that of S1, its
    [selected_features] is that of Sn, and its [get_features_score()]
    returns the [mapped_importances] of Sn as they are. *)
Theorem composed_fit_reports_first_and_last limit self selectors tvo w w' o :
  heap w !! self = Some o →
  cls o = ComposedSelector_class selectors →
  fit limit self tvo w = (inr tt, w') →
  ∃ first last_selector o_last inf selected,
    head selectors = Some first
    ∧ last selectors = Some last_selector
    ∧ on_self self in_features w' = (inr inf, w')
    ∧ on_self first in_features w' = (inr inf, w')
    ∧ on_self self selected_features w' = (inr selected, w')
    ∧ on_self last_selector selected_features w' = (inr selected, w')
    ∧ heap w' !! last_selector = Some o_last
    ∧ get_features_score self w'
      = (inr (mapped_importances (fields o_last)), w').
Proof.
  intros Ho Hcls Hfit. destruct limit as [|limit]; [done|].
  cbn [fit] in Hfit. apply bind_ok in Hfit as (c & w0 & Hc & Hfit).
  rewrite (class_of_eq _ _ _ Ho), Hcls in Hc. injection Hc as <- <-.
  apply ComposedSelector_fit_ok in Hfit
    as (tvo' & wl & first & last_selector & o_first & inf & o_self & o_last
        & selected & Hloop & Hhead & Hlast & Ho_first & Hinf & Ho_self
        & Ho_last & Hselected & ->).
  destruct (ComposedSelector_fit_loop _ _ _ _ _ _ (fit_keeps limit) Hloop)
    as [Hkeep _].
  destruct (proj2 Hkeep self o Ho) as (o_self' & Ho_self' & Hcls' & _).
  assert (o_self' = o_self) as -> by congruence.
  assert (self < length (heap wl)) as Hlt by (by eapply lookup_lt_Some).
  set (o' := {| cls := cls o_self;
                fields := set__selected_features (Some selected)
                            (set__in_features (Some inf) (fields o_self)) |}).
  set (w1 := {| heap := <[self := o']> (heap wl); log := log wl |}).
  assert (heap w1 !! self = Some o') as Hself
    by (cbn; by rewrite list_lookup_insert_eq).
  assert (∃ o1, heap w1 !! first = Some o1
                ∧ _in_features (fields o1) = Some inf) as (o1 & Ho1 & Hin1).
  { destruct (decide (first = self)) as [->|Hne]; [by exists o'|].
    exists o_first. cbn. by rewrite list_lookup_insert_ne. }
  assert (∃ on, heap w1 !! last_selector = Some on
                ∧ _selected_features (fields on) = Some selected)
    as (on & Hon & Hseln).
  { destruct (decide (last_selector = self)) as [->|Hne]; [by exists o'|].
    exists o_last. cbn. rewrite list_lookup_insert_ne in Ho_last by done.
    by rewrite list_lookup_insert_ne. }
  exists first, last_selector, on, inf, selected.
  split_and!; [done | done | | | | | done |].
  - eapply on_self_pure; [exact Hself|]. by apply in_features_Some.
  - eapply on_self_pure; [exact Ho1|]. by apply in_features_Some.
  - eapply on_self_pure; [exact Hself|]. by apply selected_features_Some.
  - eapply on_self_pure; [exact Hon|]. by apply selected_features_Some.
  - unfold get_features_score. unfold bind at 1.
    rewrite (class_of_eq _ _ _ Hself). cbn [cls o']. rewrite Hcls', Hcls.
    unfold ComposedSelector_get_features_score, bind, getitem_last.
    rewrite Hlast. cbn [ret].
    eapply on_self_pure; [exact Hon|]. done.
Qed.

(** C3. Calling [fit] again, with the same iterator, on a selector that
    the first call has fitted changes nothing: the second call returns
    and leaves every selector of the store, and the record of calls made,
    as the first call left them.  A composed selector is taken not to be
    one of its own children. *)
Theorem refit_is_noop limit self tvo w w1 :
  not_own_child w self →
  fit limit self tvo w = (inr tt, w1) →
  on_self self is_fitted w1 = (inr true, w1) →
  fit limit self tvo w1 = (inr tt, w1).
Proof.
  intros Hchild Hfit Hfitted. pose proof (fit_keeps _ _ _ _ _ Hfit) as Hkeeps.
  destruct limit as [|limit]; [done|].
  cbn [fit] in Hfit. apply bind_ok in Hfit as (c & w0 & Hc & Hfit).
  unfold class_of in Hc. destruct (heap w !! self) as [o|] eqn:Ho; [|done].
  injection Hc as <- <-.
  destruct (proj2 Hkeeps self o Ho) as (o1 & Ho1 & Hcls1 & _).
  apply (on_self_reads_only _ _ _ _ _ is_fitted_reads_only) in Hfitted
    as (_ & o1' & Ho1' & Hfitted).
  assert (o1' = o1) as -> by congruence.
  rewrite is_fitted_eq in Hfitted. injection Hfitted as Hfitted.
  apply bool_decide_eq_true in Hfitted.
  cbn [fit]. unfold bind at 1. rewrite (class_of_eq _ _ _ Ho1), Hcls1.
  destruct (cls o) as [| |columns|selectors|perform] eqn:Hcls;
    try (eapply on_self_pure; [exact Ho1|];
         by apply SelectionPipeline_fit_fitted).
  specialize (Hchild o selectors Ho Hcls).
  apply ComposedSelector_fit_ok in Hfit
    as (tvo' & wl & first & last_selector & o_first & inf & o_self & o_last
        & selected & Hloop & Hhead & Hlast & Ho_first & Hinf & Ho_self
        & Ho_last & Hselected & ->).
  destruct (ComposedSelector_fit_loop _ _ _ _ _ _ (fit_keeps limit) Hloop)
    as [_ Hagain].
  assert (self < length (heap wl)) as Hlt by (by eapply lookup_lt_Some).
  assert (first ≠ self) as Hfirst.
  { intros ->. apply Hchild. apply head_Some_elem_of. done. }
  assert (last_selector ≠ self) as Hlast_ne.
  { intros ->. apply Hchild. apply last_Some_elem_of. done. }
  rewrite list_lookup_insert_ne in Ho_last by done.
  cbn in Ho1. rewrite list_lookup_insert_eq in Ho1 by done.
  injection Ho1 as <-.
  set (o' := {| cls := cls o_self;
                fields := set__selected_features (Some selected)
                            (set__in_features (Some inf) (fields o_self)) |}).
  set (w1 := {| heap := <[self := o']> (heap wl); log := log wl |}).
  assert (heap w1 !! self = Some o') as Hself
    by (cbn; by rewrite list_lookup_insert_eq).
  assert (∀ c, c ∈ selectors → heap w1 !! c = heap wl !! c) as Hsame.
  { intros c Hc. cbn. rewrite list_lookup_insert_ne; [done|].
    intros ->. by apply Hchild. }
  unfold ComposedSelector_fit. unfold bind at 1.
  rewrite (Hagain (fit limit) w1 Hsame).
  unfold bind at 1. unfold getitem_first. rewrite Hhead. cbn [ret].
  unfold bind at 1.
  rewrite (on_self_pure first in_features w1 o_first (inr inf))
    by (by rewrite ?Hsame by (by apply head_Some_elem_of);
        try apply in_features_Some).
  unfold bind at 1.
  assert (∀ upd, upd (fields o') = fields o' →
                 on_self self (setattr upd) w1 = (inr tt, w1)) as Hset.
  { intros upd Hupd. rewrite (on_self_setattr _ _ _ _ Hself), Hupd.
    subst w1. cbn. by rewrite list_insert_insert_eq. }
  rewrite Hset by done.
  unfold ComposedSelector_perform_selection, bind, getitem_last.
  rewrite Hlast. cbn [ret].
  rewrite (on_self_pure last_selector selected_features w1 o_last
             (inr selected))
    by (by rewrite ?Hsame by (by apply last_Some_elem_of);
        try apply selected_features_Some).
  by apply Hset.
Qed.

End Composed.

Lemma composed_fit_reports_first_and_last_witness :
  fit 2 2 (Some Demo.abc_iterator) Demo.chain_world
  = (inr tt, Demo.fitted_chain_world)
  ∧ ∃ o_last inf selected,
      on_self 2 in_features Demo.fitted_chain_world
      = (inr inf, Demo.fitted_chain_world)
      ∧ on_self 0 in_features Demo.fitted_chain_world
        = (inr inf, Demo.fitted_chain_world)
      ∧ on_self 2 selected_features Demo.fitted_chain_world
        = (inr selected, Demo.fitted_chain_world)
      ∧ on_self 1 selected_features Demo.fitted_chain_world
        = (inr selected, Demo.fitted_chain_world)
      ∧ heap Demo.fitted_chain_world !! 1 = Some o_last
      ∧ get_features_score 2 Demo.fitted_chain_world
        = (inr (mapped_importances (fields o_last)), Demo.fitted_chain_world).
Proof.
  assert (fit 2 2 (Some Demo.abc_iterator) Demo.chain_world
          = (inr tt, Demo.fitted_chain_world)) as Hfit
    by (vm_compute; reflexivity).
  split; [exact Hfit|].
  destruct (composed_fit_reports_first_and_last 2 2 [0; 1]
              (Some Demo.abc_iterator) Demo.chain_world
              Demo.fitted_chain_world _ eq_refl eq_refl Hfit)
    as (first & last_selector & o_last & inf & selected & Hhead & Hlast
        & Hrest).
  injection Hhead as <-. injection Hlast as <-.
  exists o_last, inf, selected. exact Hrest.
Defined.

Lemma refit_is_noop_witness :
  fit 2 2 (Some Demo.abc_iterator) Demo.chain_world
  = (inr tt, Demo.fitted_chain_world)
  ∧ fit 2 2 (Some Demo.abc_iterator) Demo.fitted_chain_world
    = (inr tt, Demo.fitted_chain_world).
Proof.
  assert (fit 2 2 (Some Demo.abc_iterator) Demo.chain_world
          = (inr tt, Demo.fitted_chain_world)) as Hfit
    by (vm_compute; reflexivity).
  split; [exact Hfit|].
  apply (refit_is_noop 2 2 (Some Demo.abc_iterator) Demo.chain_world
           Demo.fitted_chain_world).
  - intros o selectors [= <-] [= <-] Hin.
    repeat (apply elem_of_cons in Hin as [Hin|Hin]; [discriminate|]).
    by apply elem_of_nil in Hin.
  - exact Hfit.
  - vm_compute. reflexivity.
Defined.

(** * Further properties of the selectors *)

(** ** Dropped features, [select] and the importance table *)

Section MoreMethods.

Context `{Collaborators}.

Implicit Types (fr : Frame) (dataset : LAMLDataset.t) (raw : Series).

Lemma dropped_features_eq fr selected inf :
  _selected_features (this fr) = Some selected →
  _in_features (this fr) = Some inf →
  dropped_features fr = (inr (filter (λ x, x ∉ selected) inf), fr).
Proof.
  intros Hsel Hin.
  unfold dropped_features, getattr, gets, bind, iterate, ret.
  rewrite Hsel. cbv beta iota. rewrite Hin. cbv beta iota.
  by rewrite filter_not_in_set.
Qed.

(** X1. On a selector with both lists set, [dropped_features] returns a
    sublist of [in_features] that shares no feature with
    [selected_features], and every input feature is selected or dropped. *)
Theorem dropped_features_partition fr selected inf :
  _selected_features (this fr) = Some selected →
  _in_features (this fr) = Some inf →
  ∃ dropped,
    dropped_features fr = (inr dropped, fr)
    ∧ dropped `sublist_of` inf
    ∧ (∀ x, x ∈ dropped → x ∉ selected)
    ∧ (∀ x, x ∈ inf → x ∈ selected ∨ x ∈ dropped).
Proof.
  intros Hsel Hin. exists (filter (λ x, x ∉ selected) inf). split_and!.
  - by apply dropped_features_eq.
  - apply sublist_filter.
  - by intros x [Hx _]%list_elem_of_filter.
  - intros x Hx. destruct (decide (x ∈ selected)); [by left|].
    right. by apply list_elem_of_filter.
Qed.

(** When the loop of [select] runs through, every column it visited has
    a role. *)
Lemma select_loop_inr (roles : gmap string ColumnRole) (sl_set : gset string)
    (cols acc l : list string) fr fr' :
  for_loop cols acc (select_body roles sl_set) fr = (inr l, fr') →
  ∀ col, col ∈ cols → is_Some (roles !! col).
Proof.
  revert acc. induction cols as [|c cols IH]; intros acc Hloop col Hcol.
  - by apply elem_of_nil in Hcol.
  - cbn [for_loop] in Hloop. unfold bind at 1 in Hloop.
    unfold select_body at 1 in Hloop. unfold bind at 1 in Hloop.
    destruct (roles !! c) as [role|] eqn:Hrole; [|done]. cbn in Hloop.
    apply elem_of_cons in Hcol as [->|Hcol]; [by rewrite Hrole|].
    destruct (force_input role); [case_bool_decide|]; cbn in Hloop;
      by eapply IH.
Qed.

(** The loop of [select] stops at the first column without a role. *)
Lemma select_loop_key_error (roles : gmap string ColumnRole)
    (sl_set : gset string) (pre post acc : list string) (col : string) fr :
  (∀ c, c ∈ pre → is_Some (roles !! c)) →
  roles !! col = None →
  for_loop (pre ++ col :: post) acc (select_body roles sl_set) fr
  = (inl (KeyError col), fr).
Proof.
  intros Hpre Hcol. revert acc.
  induction pre as [|c pre IH]; intros acc; cbn [for_loop app].
  - unfold bind at 1. unfold select_body at 1. unfold bind at 1.
    by rewrite Hcol.
  - unfold bind at 1. unfold select_body at 1. unfold bind at 1.
    destruct (Hpre c) as [role ->]; [left|]. cbn.
    assert (∀ c', c' ∈ pre → is_Some (roles !! c'))
      by (intros; apply Hpre; by right).
    destruct (force_input role); [case_bool_decide|]; cbn; by apply IH.
Qed.

(** X2. [select] returns a dataset exactly when the selector is fitted,
    every feature of the dataset outside the selected ones has a role and
    the dataset has every selected feature as a column. *)
Theorem select_returns_iff dataset fr :
  (∃ d, select dataset fr = (inr d, fr))
  ↔ ∃ selected,
      _selected_features (this fr) = Some selected
      ∧ (∀ col, col ∈ LAMLDataset.features dataset → col ∉ selected →
                is_Some (LAMLDataset.roles dataset !! col))
      ∧ (∀ col, col ∈ selected → col ∈ LAMLDataset.features dataset).
Proof.
  split.
  - intros [d Hd]. pose proof Hd as [_ Hinv]%select_inv.
    destruct (Hinv d eq_refl) as (selected & Hsel & [_ Hcols]%getitem_cols_inr).
    exists selected. split_and!; [done| |done]. intros col Hcol Hnot.
    unfold select in Hd. apply bind_ok in Hd as (selected' & fr1 & Hs & Hd).
    rewrite (selected_features_Some fr selected Hsel) in Hs.
    injection Hs as <- <-.
    apply bind_ok in Hd as (l & fr2 & Hloop & _).
    apply (select_loop_inr _ _ _ _ _ _ _ Hloop).
    apply list_elem_of_filter. by rewrite elem_of_list_to_set.
  - intros (selected & Hsel & Hroles & Hcols). eexists. by apply select_ok.
Qed.

(** X3. On a fitted selector, [select] raises [KeyError] for the first
    feature of the dataset, outside the selected ones, that has no
    role. *)
Theorem select_missing_role fr dataset selected pre post col :
  _selected_features (this fr) = Some selected →
  filter (λ x, x ∉ selected) (LAMLDataset.features dataset)
  = (pre ++ col :: post)%list →
  (∀ c, c ∈ pre → is_Some (LAMLDataset.roles dataset !! c)) →
  LAMLDataset.roles dataset !! col = None →
  select dataset fr = (inl (KeyError col), fr).
Proof.
  intros Hsel Hcols Hpre Hcol. unfold select. unfold bind at 1.
  rewrite (selected_features_Some fr selected Hsel).
  unfold bind at 1. rewrite filter_not_in_set, Hcols.
  by rewrite select_loop_key_error.
Qed.

(** X4. Whatever [select] returns or raises, it leaves the selector as
    it was: the forced features it appends go to a copy of the list. *)
Theorem select_leaves_selector dataset fr :
  (select dataset fr).2 = fr.
Proof.
  destruct (select dataset fr) as [r fr'] eqn:E.
  by apply select_inv in E as [-> _].
Qed.

(** [map_raw_feature_importances] returns only on a selector whose
    [in_features] is set and for labels the name mapping traces. *)
Lemma map_raw_feature_importances_inr fr raw :
  (map_raw_feature_importances raw fr).1 = inr tt →
  ∃ inf mapped,
    _in_features (this fr) = Some inf
    ∧ map_pipeline_names inf (Series_index raw) = inr mapped.
Proof.
  destruct (_in_features (this fr)) as [inf|] eqn:Hin.
  - destruct (map_pipeline_names inf (Series_index raw)) as [e|mapped] eqn:Hmap.
    + by rewrite (map_raw_feature_importances_untraced fr inf raw e Hin Hmap).
    + eauto.
  - unfold map_raw_feature_importances, bind.
    by rewrite (in_features_None fr Hin).
Qed.

(** X5. [map_raw_feature_importances] returns exactly when [in_features]
    is set and the name mapping traces every label of the raw table.
    Before [in_features] is set it fails with the assertion of
    [in_features], whatever the table; and whenever it raises, it stores
    nothing. *)
Theorem map_raw_feature_importances_returns_iff fr raw :
  ((map_raw_feature_importances raw fr).1 = inr tt
   ↔ ∃ inf mapped,
       _in_features (this fr) = Some inf
       ∧ map_pipeline_names inf (Series_index raw) = inr mapped)
  ∧ (_in_features (this fr) = None →
     map_raw_feature_importances raw fr
     = (inl (AssertionError "Should be fitted first"), fr))
  ∧ (∀ e, (map_raw_feature_importances raw fr).1 = inl e →
          (map_raw_feature_importances raw fr).2 = fr).
Proof.
  split_and!.
  - split; [apply map_raw_feature_importances_inr|].
    intros (inf & mapped & Hin & Hmap).
    by rewrite (map_raw_feature_importances_eq fr inf raw mapped Hin Hmap).
  - intros Hin. unfold map_raw_feature_importances, bind.
    by rewrite (in_features_None fr Hin).
  - intros e. destruct (_in_features (this fr)) as [inf|] eqn:Hin.
    + destruct (map_pipeline_names inf (Series_index raw))
        as [e'|mapped] eqn:Hmap.
      * by rewrite (map_raw_feature_importances_untraced fr inf raw e' Hin Hmap).
      * by rewrite (map_raw_feature_importances_eq fr inf raw mapped Hin Hmap).
    + unfold map_raw_feature_importances, bind.
      by rewrite (in_features_None fr Hin).
Qed.

(** X6. [map_raw_feature_importances] replaces the stored table: when
    the call with [raw2] returns, making it after a call with [raw1],
    which may have raised, leaves the selector as a single call with
    [raw2] does; scores do not accumulate over calls. *)
Theorem map_raw_feature_importances_replaces fr raw1 raw2 :
  (map_raw_feature_importances raw2 fr).1 = inr tt →
  map_raw_feature_importances raw2 (map_raw_feature_importances raw1 fr).2
  = map_raw_feature_importances raw2 fr.
Proof.
  intros (inf & mapped2 & Hin & Hmap2)%map_raw_feature_importances_inr.
  destruct (map_pipeline_names inf (Series_index raw1)) as [e|mapped1] eqn:Hmap1.
  - by rewrite (map_raw_feature_importances_untraced fr inf raw1 e Hin Hmap1).
  - rewrite (map_raw_feature_importances_eq fr inf raw1 mapped1 Hin Hmap1).
    cbn [snd].
    rewrite (map_raw_feature_importances_eq _ inf raw2 mapped2) by done.
    by rewrite (map_raw_feature_importances_eq fr inf raw2 mapped2 Hin Hmap2).
Qed.

End MoreMethods.

Lemma dropped_features_partition_witness :
  ∃ dropped,
    dropped_features Demo.fitted_a = (inr dropped, Demo.fitted_a)
    ∧ dropped `sublist_of` ["a"; "b"; "c"].
Proof.
  destruct (dropped_features_partition Demo.fitted_a ["a"] ["a"; "b"; "c"]
              eq_refl eq_refl) as (dropped & E & Hsub & _).
  exists dropped. exact (conj E Hsub).
Defined.

Lemma select_missing_role_witness :
  select Demo.abc_without_role_c Demo.fitted_a
  = (inl (KeyError "c"), Demo.fitted_a).
Proof.
  apply (select_missing_role Demo.fitted_a Demo.abc_without_role_c
           ["a"] ["b"] [] "c" eq_refl).
  - vm_compute. reflexivity.
  - intros c ->%list_elem_of_singleton. vm_compute. eauto.
  - vm_compute. reflexivity.
Defined.

Lemma map_raw_feature_importances_replaces_witness :
  (@map_raw_feature_importances Demo.collaborators [("f_derived2", 1%Z)]
     (@map_raw_feature_importances Demo.collaborators [("f_derived1", 3%Z)]
        {| this := set__in_features (Some ["f"]) Demo.fresh;
           calls := [] |}).2).2
  = {| this := @set_mapped_importances Demo.collaborators
                 (Some [("f", 1%Z)])
                 (set__in_features (Some ["f"]) Demo.fresh);
       calls := [] |}.
Proof.
  rewrite (@map_raw_feature_importances_replaces Demo.collaborators
             {| this := set__in_features (Some ["f"]) Demo.fresh;
                calls := [] |}
             [("f_derived1", 3%Z)] [("f_derived2", 1%Z)] eq_refl).
  reflexivity.
Defined.

(** ** More on [SelectionPipeline.fit] *)

Section MoreFit.

Context `{Collaborators}.

Implicit Types (fr : Frame) (tv : TrainValidIterator.t).
Implicit Types (perform : TrainValidIterator.t → Method unit).

Local Ltac run_method :=
  unfold bind, ret, raise, gets, modify, lift, getattr, setattr, call,
    assert, nonnull;
  cbn.

Local Ltac open_frame fr :=
  destruct fr as [[pipeline holdout algo self_tuner empty estimator
                   selected inf importances] log0];
  cbn [this calls features_pipeline _fit_on_holdout ml_algo tuner
       _empty_algo imp_estimator _selected_features _in_features
       mapped_importances] in *;
  subst.

(** Splits on what the estimator's [fit] does. *)
Local Ltac split_estimator est :=
  let g := fresh "f" in
  let raw := fresh "raw" in
  let override := fresh "override" in
  unfold ImportanceEstimator_fit;
  destruct est as [raw override]; destruct override as [g|]; run_method;
  [ match goal with
    | |- context [g ?a ?b ?c] => destruct (g a b c)
    end |].

(** X7. [fit] on an unfit instance of the abstract class never returns
    normally and never makes the selector fitted, whatever is configured
    and whatever the iterator: at the latest, [perform_selection] raises
    [NotImplementedError]. *)
Theorem abstract_fit_never_fits fr (train_valid : option TrainValidIterator.t) :
  _selected_features (this fr) = None →
  (∃ e, (SelectionPipeline_fit SelectionPipeline_perform_selection
           train_valid fr).1 = inl e)
  ∧ _selected_features
      (this (SelectionPipeline_fit SelectionPipeline_perform_selection
               train_valid fr).2) = None.
Proof.
  intros Hsel. open_frame fr. unfold SelectionPipeline_perform_selection.
  destruct train_valid as [tv|]; [|destruct holdout; cbn; eauto].
  destruct holdout, pipeline as [p|], algo as [m|]; cbn;
    try (destruct (MLAlgo.is_fitted m); cbn;
         [ case_bool_decide; cbn; [|by eauto]
         | destruct self_tuner as [t|]; run_method; [|by eauto];
           match goal with
           | |- context [tune_and_fit_predict ?a ?b ?c] =>
               destruct (tune_and_fit_predict a b c) as [m' preds]
           end ]);
    (destruct estimator as [est|]; [split_estimator est|]);
    run_method; eauto.
Qed.

(** X8. When [fit] on an unfit selector is given an iterator, it records
    as [in_features] the features of that iterator, after the holdout
    conversion and before the feature pipeline, whether the rest of the
    fit succeeds or raises, as long as [perform_selection] does not
    overwrite them. *)
Theorem fit_records_input_features perform fr tv :
  (∀ tv' fr', _in_features (this (perform tv' fr').2)
              = _in_features (this fr')) →
  _selected_features (this fr) = None →
  _in_features (this (SelectionPipeline_fit perform (Some tv) fr).2)
  = Some (TrainValidIterator.features (iterator_at_input (this fr) tv)).
Proof.
  intros Hperform Hsel. open_frame fr. unfold iterator_at_input.
  cbn [_fit_on_holdout].
  destruct holdout, pipeline as [p|], algo as [m|]; cbn;
    try (destruct (MLAlgo.is_fitted m); cbn;
         [ case_bool_decide; cbn; [|done]
         | destruct self_tuner as [t|]; run_method; [|done];
           match goal with
           | |- context [tune_and_fit_predict ?a ?b ?c] =>
               destruct (tune_and_fit_predict a b c) as [m' preds]
           end ]);
    (destruct estimator as [est|]; [split_estimator est|]);
    run_method; rewrite ?Hperform; done.
Qed.

(** X9. On an unfit selector with an unfit model and an importance
    estimator, [fit] stores the model returned by the tuner and fits the
    estimator on that model with the tuner's predictions; if the
    estimator raises, [fit] raises the same exception with the tuned
    model stored, otherwise [perform_selection] runs with the estimator's
    table stored. *)
Theorem fit_feeds_estimator perform fr tv m t est f :
  _selected_features (this fr) = None →
  ml_algo (this fr) = Some m →
  MLAlgo.is_fitted m = false →
  tuner (this fr) = Some t →
  imp_estimator (this fr) = Some est →
  fit_override est = Some f →
  let tv' := iterator_at_model (this fr) tv in
  let tuned := tune_and_fit_predict m t tv' in
  let fr1 :=
    {| this := set_ml_algo (Some tuned.1) (this (frame_at_model fr tv));
       calls := (calls (frame_at_model fr tv)
                 ++ [tune_and_fit_predict_call; imp_estimator_fit_call])%list
    |} in
  SelectionPipeline_fit perform (Some tv) fr
  = match f tv' (Some tuned.1) (Some tuned.2) with
    | inl e => (inl e, fr1)
    | inr imps =>
        perform tv'
          {| this := set_imp_estimator
                       (Some {| raw_importances := imps;
                                fit_override := Some f |})
                       (this fr1);
             calls := calls fr1 |}
    end.
Proof.
  intros Hsel Halgo Hfit Htuner Hest Hf. open_frame fr.
  unfold frame_at_model, iterator_at_model, iterator_at_input,
    calls_before_model.
  cbn [this calls features_pipeline _fit_on_holdout].
  destruct holdout, pipeline as [p|]; cbn; rewrite Hfit; run_method;
    match goal with
    | |- context [tune_and_fit_predict ?a ?b ?c] =>
        destruct (tune_and_fit_predict a b c) as [m' preds]
    end; cbn;
    unfold ImportanceEstimator_fit; rewrite Hf; run_method;
    match goal with
    | |- context [f ?a ?b ?c] => destruct (f a b c)
    end; cbn; rewrite <- ?app_assoc; cbn; done.
Qed.

(** X20. On an unfit selector with a model that is already fitted on the
    features of the iterator and an importance estimator, [fit] does not
    run the tuner: it fits the estimator on the model as it is, with no
    predictions, and then runs [perform_selection]; if the estimator
    raises, [fit] raises the same exception. *)
Theorem fit_reuses_fitted_model perform fr tv m est f :
  _selected_features (this fr) = None →
  ml_algo (this fr) = Some m →
  MLAlgo.is_fitted m = true →
  MLAlgo.features m
  = TrainValidIterator.features (iterator_at_model (this fr) tv) →
  imp_estimator (this fr) = Some est →
  fit_override est = Some f →
  let tv' := iterator_at_model (this fr) tv in
  let fr1 :=
    {| this := this (frame_at_model fr tv);
       calls := (calls (frame_at_model fr tv)
                 ++ [imp_estimator_fit_call])%list |} in
  SelectionPipeline_fit perform (Some tv) fr
  = match f tv' (Some m) None with
    | inl e => (inl e, fr1)
    | inr imps =>
        perform tv'
          {| this := set_imp_estimator
                       (Some {| raw_importances := imps;
                                fit_override := Some f |})
                       (this fr1);
             calls := calls fr1 |}
    end.
Proof.
  intros Hsel Halgo Hfit Hfeatures Hest Hf. open_frame fr.
  unfold frame_at_model, iterator_at_model, iterator_at_input,
    calls_before_model in *.
  cbn [this calls features_pipeline _fit_on_holdout] in *.
  destruct holdout, pipeline as [p|]; cbn; rewrite Hfit; cbn;
    rewrite bool_decide_true by done; run_method;
    unfold ImportanceEstimator_fit; rewrite Hf; run_method;
    match goal with
    | |- context [f ?a ?b ?c] => destruct (f a b c)
    end; cbn; rewrite <- ?app_assoc; cbn; done.
Qed.

(** X21. A selector constructed with a lone unfit model keeps that model
    aside in [_empty_algo]: whenever [fit] is given an iterator, it runs
    the default tuner and stores the tuned model in [ml_algo], whether
    the rest of the fit succeeds or raises, and [_empty_algo] still holds
    the model as it was given, as long as [perform_selection] leaves the
    two attributes alone. *)
Theorem fit_keeps_pristine_model perform
    (pipeline : option FeaturesPipeline) (m : MLAlgo.t)
    (estimator : option ImportanceEstimator) (fit_on_holdout : bool)
    tv (log0 : list Call) :
  (∀ tv' fr', ml_algo (this (perform tv' fr').2) = ml_algo (this fr')
              ∧ _empty_algo (this (perform tv' fr').2)
                = _empty_algo (this fr')) →
  MLAlgo.is_fitted m = false →
  let fr := {| this := SelectionPipeline__init__ pipeline (Some (inl m))
                         estimator fit_on_holdout;
               calls := log0 |} in
  let fr' := (SelectionPipeline_fit perform (Some tv) fr).2 in
  _empty_algo (this fr') = Some m
  ∧ ml_algo (this fr')
    = Some (tune_and_fit_predict m DefaultTuner
              (iterator_at_model (this fr) tv)).1.
Proof.
  intros Hperform Hfit.
  pose proof (λ tv' fr', proj1 (Hperform tv' fr')) as Hp1.
  pose proof (λ tv' fr', proj2 (Hperform tv' fr')) as Hp2.
  unfold SelectionPipeline__init__.
  cbn [fst snd]. rewrite Hfit.
  unfold iterator_at_model, iterator_at_input.
  cbn [this features_pipeline _fit_on_holdout].
  destruct fit_on_holdout, pipeline as [p|]; cbn; rewrite Hfit; run_method;
    match goal with
    | |- context [tune_and_fit_predict ?a ?b ?c] =>
        destruct (tune_and_fit_predict a b c) as [m' preds]
    end; cbn;
    (destruct estimator as [est|]; [split_estimator est|]);
    run_method; rewrite ?Hp1, ?Hp2; done.
Qed.

End MoreFit.

Lemma abstract_fit_never_fits_witness :
  (SelectionPipeline_fit SelectionPipeline_perform_selection
     (Some Demo.abc_iterator) {| this := Demo.fresh; calls := [] |}).1
  = inl NotImplementedError
  ∧ _selected_features
      (this (SelectionPipeline_fit SelectionPipeline_perform_selection
               (Some Demo.abc_iterator)
               {| this := Demo.fresh; calls := [] |}).2) = None.
Proof.
  split; [reflexivity|].
  exact (proj2 (abstract_fit_never_fits {| this := Demo.fresh; calls := [] |}
                  (Some Demo.abc_iterator) eq_refl)).
Defined.

Lemma fit_records_input_features_witness :
  _in_features
    (this (SelectionPipeline_fit EmptySelector_perform_selection
             (Some Demo.abc_iterator) Demo.with_unfit_model).2)
  = Some ["a"; "b"; "c"].
Proof.
  exact (fit_records_input_features EmptySelector_perform_selection
           Demo.with_unfit_model Demo.abc_iterator
           (λ _ _, eq_refl) eq_refl).
Defined.

Lemma fit_feeds_estimator_witness :
  (SelectionPipeline_fit EmptySelector_perform_selection
     (Some Demo.abc_iterator) Demo.with_unfit_model).1 = inr tt
  ∧ ml_algo (this (SelectionPipeline_fit EmptySelector_perform_selection
                     (Some Demo.abc_iterator) Demo.with_unfit_model).2)
    = Some {| MLAlgo.is_fitted := true;
              MLAlgo.features := ["a"; "b"; "c"] |}.
Proof.
  rewrite (fit_feeds_estimator EmptySelector_perform_selection
             Demo.with_unfit_model Demo.abc_iterator Demo.unfit_model 3
             Demo.fixed_estimator Demo.fixed_scores
             eq_refl eq_refl eq_refl eq_refl eq_refl eq_refl).
  split; reflexivity.
Defined.

(** ** Selectors in the store: the classes without children *)

Section MoreLeaves.

Context `{Collaborators}.

Implicit Types (w : World) (self : ref) (o : Obj) (fr : Frame).
Implicit Types (tv : TrainValidIterator.t).

(** On an object that is not a composed selector, [fit] is
    [SelectionPipeline.fit] with the [perform_selection] of its class. *)
Lemma fit_leaf limit self (tvo : option TrainValidIterator.t) w o perform :
  heap w !! self = Some o →
  perform_selection_of (cls o) = Some perform →
  fit (S limit) self tvo w = on_self self (SelectionPipeline_fit perform tvo) w.
Proof.
  intros Ho Hperform. cbn [fit]. unfold bind at 1.
  rewrite (class_of_eq _ _ _ Ho).
  destruct (cls o); cbn in Hperform; try done; by injection Hperform as <-.
Qed.

(** [fit] on an unfit selector with nothing configured records the input
    features and selects. *)
Lemma SelectionPipeline_fit_bare
    (perform : TrainValidIterator.t → Method unit) tv fr :
  _selected_features (this fr) = None →
  bare (this fr) →
  SelectionPipeline_fit perform (Some tv) fr
  = perform tv
      {| this := set__in_features (Some (TrainValidIterator.features tv))
                   (this fr);
         calls := calls fr |}.
Proof.
  intros Hsel (Hhold & Hpipe & Halgo & Hest).
  destruct fr as [[] ?]. cbn in *. subst. reflexivity.
Qed.

Lemma filter_not_in_nil (l : list string) : filter (λ x, x ∉ []) l = l.
Proof.
  induction l as [|x l IH]; [done|].
  rewrite filter_cons_True by apply not_elem_of_nil. by rewrite IH.
Qed.

Lemma filter_not_in_self (l : list string) : filter (λ x, x ∉ l) l = [].
Proof.
  destruct (filter (λ x, x ∉ l) l) as [|x rest] eqn:E; [done|].
  assert (x ∈ filter (λ x, x ∉ l) l) as [Hnot Hin]%list_elem_of_filter
    by (rewrite E; left).
  done.
Qed.

(** X10. [EmptySelector().fit(train_valid)] always returns and keeps
    everything: [selected_features] and [in_features] are the iterator's
    features, in order, nothing is dropped, no collaborator is called, and
    [select] on the iterator's training data returns all its features. *)
Theorem empty_selector_keeps_all limit w tv :
  ∃ self w1 w2 d,
    EmptySelector w = (inr self, w1)
    ∧ fit (S limit) self (Some tv) w1 = (inr tt, w2)
    ∧ on_self self selected_features w2
      = (inr (TrainValidIterator.features tv), w2)
    ∧ on_self self in_features w2
      = (inr (TrainValidIterator.features tv), w2)
    ∧ on_self self dropped_features w2 = (inr [], w2)
    ∧ on_self self (select (TrainValidIterator.train tv)) w2 = (inr d, w2)
    ∧ LAMLDataset.features d = TrainValidIterator.features tv
    ∧ log w2 = log w.
Proof.
  unfold EmptySelector. rewrite new_eq.
  set (fresh := SelectionPipeline__init__ None None None false).
  set (w1 := {| heap := heap w ++ [{| cls := EmptySelector_class;
                                      fields := fresh |}];
                log := log w |}).
  assert (heap w1 !! length (heap w)
          = Some {| cls := EmptySelector_class; fields := fresh |})
    as Hself by apply lookup_new.
  set (fitted_fields :=
         set__selected_features (Some (TrainValidIterator.features tv))
           (set__in_features (Some (TrainValidIterator.features tv)) fresh)).
  set (w2 := {| heap := heap w ++ [{| cls := EmptySelector_class;
                                      fields := fitted_fields |}];
                log := log w |}).
  assert (heap w2 !! length (heap w)
          = Some {| cls := EmptySelector_class; fields := fitted_fields |})
    as Hself2 by apply lookup_new.
  exists (length (heap w)), w1, w2,
    (LAMLDataset.view (TrainValidIterator.train tv)
       (TrainValidIterator.features tv)).
  split_and!; try done.
  - rewrite (fit_leaf _ _ _ _ _ EmptySelector_perform_selection Hself)
      by done.
    rewrite (on_self_eq _ _ _ _ Hself). cbn [fields heap log w1 fst snd].
    unfold fresh at 1 2 3. rewrite !SelectionPipeline_fit_plain.
    cbn. by rewrite insert_new.
  - eapply on_self_pure; [exact Hself2|]. by apply selected_features_Some.
  - eapply on_self_pure; [exact Hself2|]. by apply in_features_Some.
  - eapply on_self_pure; [exact Hself2|].
    rewrite (dropped_features_eq _ (TrainValidIterator.features tv)
               (TrainValidIterator.features tv)) by done.
    by rewrite filter_not_in_self.
  - eapply on_self_pure; [exact Hself2|].
    apply select_ok; [done| |done]. intros col Hcol Hnot. by destruct Hnot.
Qed.

(** What [fit] does on a new [PredefinedSelector]. *)
Lemma PredefinedSelector_fit_new limit w (columns : list string) tv :
  fit (S limit) (length (heap w)) (Some tv) (PredefinedSelector columns w).2
  = if bool_decide ((list_to_set columns : gset string)
                    ⊆ list_to_set (TrainValidIterator.features tv))
    then (inr tt,
          {| heap := heap w
                     ++ [{| cls := PredefinedSelector_class
                                     (list_to_set columns);
                            fields :=
                              set__selected_features
                                (Some (elements
                                         (list_to_set columns : gset string)))
                                (set__in_features
                                   (Some (TrainValidIterator.features tv))
                                   (SelectionPipeline__init__ None None None
                                                              false)) |}];
             log := log w |})
    else (inl (AssertionError
                 "Columns to select not match with dataset features"),
          {| heap := heap w
                     ++ [{| cls := PredefinedSelector_class
                                     (list_to_set columns);
                            fields :=
                              set__in_features
                                (Some (TrainValidIterator.features tv))
                                (SelectionPipeline__init__ None None None
                                                           false) |}];
             log := log w |}).
Proof.
  unfold PredefinedSelector. rewrite new_eq. cbn [snd].
  match goal with
  | |- fit _ _ _ ?w1 = _ =>
      assert (heap w1 !! length (heap w)
              = Some {| cls := PredefinedSelector_class (list_to_set columns);
                        fields := SelectionPipeline__init__ None None None
                                                            false |})
        as Hself by apply lookup_new
  end.
  rewrite (fit_leaf _ _ _ _ _
             (PredefinedSelector_perform_selection (list_to_set columns))
             Hself) by done.
  rewrite (on_self_eq _ _ _ _ Hself). cbn [fields heap log cls].
  rewrite SelectionPipeline_fit_plain,
    PredefinedSelector_perform_selection_eq, insert_new.
  by case_bool_decide.
Qed.

(** X11. When [PredefinedSelector(columns).fit] returns, the selected
    features hold each requested column once, however often it was
    requested, and the dropped features are the iterator's features that
    were not requested. *)
Theorem predefined_selected_distinct limit w (columns : list string) tv :
  (list_to_set columns : gset string)
  ⊆ list_to_set (TrainValidIterator.features tv) →
  ∃ self w1 w2 selected,
    PredefinedSelector columns w = (inr self, w1)
    ∧ fit (S limit) self (Some tv) w1 = (inr tt, w2)
    ∧ on_self self selected_features w2 = (inr selected, w2)
    ∧ NoDup selected
    ∧ (∀ x, x ∈ selected ↔ x ∈ columns)
    ∧ length selected = size (list_to_set columns : gset string)
    ∧ on_self self dropped_features w2
      = (inr (filter (λ x, x ∉ columns) (TrainValidIterator.features tv)),
         w2).
Proof.
  intros Hsub.
  pose proof (PredefinedSelector_fit_new limit w columns tv) as Hfit.
  rewrite bool_decide_true in Hfit by done.
  eexists _, _, _, (elements (list_to_set columns : gset string)).
  split; [reflexivity|]. split; [exact Hfit|]. split_and!.
  - eapply on_self_pure; [apply lookup_new|]. by apply selected_features_Some.
  - apply NoDup_elements.
  - intros x. by rewrite elem_of_elements, elem_of_list_to_set.
  - done.
  - eapply on_self_pure; [apply lookup_new|].
    rewrite (dropped_features_eq _
               (elements (list_to_set columns : gset string))
               (TrainValidIterator.features tv)) by done.
    do 2 f_equal. apply list_filter_iff.
    intros x. by rewrite elem_of_elements, elem_of_list_to_set.
Qed.

(** X12. [PredefinedSelector([])] fits on every iterator: it selects
    nothing, counts as fitted all the same, and drops every feature of
    the iterator. *)
Theorem predefined_empty_fits limit w tv :
  ∃ self w1 w2,
    PredefinedSelector [] w = (inr self, w1)
    ∧ fit (S limit) self (Some tv) w1 = (inr tt, w2)
    ∧ on_self self selected_features w2 = (inr [], w2)
    ∧ on_self self is_fitted w2 = (inr true, w2)
    ∧ on_self self dropped_features w2
      = (inr (TrainValidIterator.features tv), w2).
Proof.
  pose proof (PredefinedSelector_fit_new limit w [] tv) as Hfit.
  rewrite bool_decide_true in Hfit by apply empty_subseteq.
  cbn [list_to_set foldr] in Hfit. rewrite elements_empty in Hfit.
  eexists _, _, _. split; [reflexivity|]. split; [exact Hfit|]. split_and!.
  - eapply on_self_pure; [apply lookup_new|]. by apply selected_features_Some.
  - eapply on_self_pure; [apply lookup_new|]. by rewrite is_fitted_eq.
  - eapply on_self_pure; [apply lookup_new|].
    rewrite (dropped_features_eq _ [] (TrainValidIterator.features tv))
      by done.
    by rewrite filter_not_in_nil.
Qed.

(** X13. A [fit] that fails in [perform_selection] leaves the selector
    unfit with its input features recorded, and [fit] can be called
    again: after [PredefinedSelector(columns)] has failed on an iterator
    that lacks a column, a [fit] on an iterator that has them all
    succeeds and records the features of the second iterator. *)
Theorem predefined_fit_retry limit w (columns : list string) tv1 tv2 :
  ¬ ((list_to_set columns : gset string)
     ⊆ list_to_set (TrainValidIterator.features tv1)) →
  (list_to_set columns : gset string)
  ⊆ list_to_set (TrainValidIterator.features tv2) →
  ∃ self w1 w2 w3,
    PredefinedSelector columns w = (inr self, w1)
    ∧ fit (S limit) self (Some tv1) w1
      = (inl (AssertionError
                "Columns to select not match with dataset features"), w2)
    ∧ on_self self is_fitted w2 = (inr false, w2)
    ∧ on_self self in_features w2
      = (inr (TrainValidIterator.features tv1), w2)
    ∧ fit (S limit) self (Some tv2) w2 = (inr tt, w3)
    ∧ on_self self in_features w3
      = (inr (TrainValidIterator.features tv2), w3)
    ∧ on_self self selected_features w3
      = (inr (elements (list_to_set columns : gset string)), w3).
Proof.
  intros Hnot Hsub.
  pose proof (PredefinedSelector_fit_new limit w columns tv1) as Hfit.
  rewrite bool_decide_false in Hfit by done.
  eexists _, _, _, _. split; [reflexivity|]. split; [exact Hfit|].
  match type of Hfit with
  | _ = (_, ?w2) =>
      assert (heap w2 !! length (heap w)
              = Some {| cls := PredefinedSelector_class (list_to_set columns);
                        fields :=
                          set__in_features
                            (Some (TrainValidIterator.features tv1))
                            (SelectionPipeline__init__ None None None false)
                     |})
        as Hself by apply lookup_new
  end.
  split_and!.
  - eapply on_self_pure; [exact Hself|]. by rewrite is_fitted_eq.
  - eapply on_self_pure; [exact Hself|]. by apply in_features_Some.
  - rewrite (fit_leaf _ _ _ _ _
               (PredefinedSelector_perform_selection (list_to_set columns))
               Hself) by done.
    rewrite (on_self_eq _ _ _ _ Hself). cbn [fields heap log cls].
    rewrite !SelectionPipeline_fit_bare by done.
    rewrite PredefinedSelector_perform_selection_eq.
    rewrite bool_decide_true by done. cbn [fst snd this calls].
    rewrite insert_new. reflexivity.
  - eapply on_self_pure; [apply lookup_new|]. by apply in_features_Some.
  - eapply on_self_pure; [apply lookup_new|]. by apply selected_features_Some.
Qed.

(** X14. A fitted selector that is not composed ignores every later
    [fit], whatever the iterator, [None] included: the call returns and
    the store is as before. *)
Theorem fitted_leaf_ignores_fit limit self
    (tvo : option TrainValidIterator.t) w o :
  heap w !! self = Some o →
  fitted o →
  is_Some (perform_selection_of (cls o)) →
  fit (S limit) self tvo w = (inr tt, w).
Proof.
  intros Ho Hfitted [perform Hperform].
  rewrite (fit_leaf _ _ _ _ _ perform Ho Hperform).
  eapply on_self_pure; [exact Ho|]. by apply SelectionPipeline_fit_fitted.
Qed.

End MoreLeaves.

Lemma predefined_selected_distinct_witness :
  ∃ self w1 w2 selected,
    PredefinedSelector ["a"; "b"; "a"] Demo.empty_world = (inr self, w1)
    ∧ fit 1 self (Some Demo.abc_iterator) w1 = (inr tt, w2)
    ∧ on_self self selected_features w2 = (inr selected, w2)
    ∧ NoDup selected
    ∧ length selected = 2.
Proof.
  destruct (predefined_selected_distinct 0 Demo.empty_world ["a"; "b"; "a"]
              Demo.abc_iterator)
    as (self & w1 & w2 & selected & Hnew & Hfit & Hsel & Hnodup & _ & Hlen
        & _).
  { refine (bool_decide_unpack _ _). vm_compute. exact I. }
  exists self, w1, w2, selected. split_and!; [done..|].
  rewrite Hlen. vm_compute. reflexivity.
Defined.

Lemma predefined_fit_retry_witness :
  ∃ self w1 w2 w3,
    PredefinedSelector ["a"; "c"] Demo.empty_world = (inr self, w1)
    ∧ fit 1 self (Some Demo.ab_iterator) w1
      = (inl (AssertionError
                "Columns to select not match with dataset features"), w2)
    ∧ fit 1 self (Some Demo.abc_iterator) w2 = (inr tt, w3)
    ∧ on_self self in_features w3 = (inr ["a"; "b"; "c"], w3).
Proof.
  destruct (predefined_fit_retry 0 Demo.empty_world ["a"; "c"]
              Demo.ab_iterator Demo.abc_iterator)
    as (self & w1 & w2 & w3 & Hnew & Hfail & _ & _ & Hfit & Hin & _).
  { intros Hsub. pose proof (bool_decide_eq_true_2 _ Hsub) as Hb.
    vm_compute in Hb. discriminate. }
  { refine (bool_decide_unpack _ _). vm_compute. exact I. }
  exists self, w1, w2, w3. split_and!; done.
Defined.

Lemma fitted_leaf_ignores_fit_witness :
  fit 1 0 None Demo.fitted_empty_world = (inr tt, Demo.fitted_empty_world).
Proof.
  refine (fitted_leaf_ignores_fit 0 0 None Demo.fitted_empty_world
            {| cls := EmptySelector_class; fields := this Demo.fitted_a |}
            eq_refl _ _).
  - by exists ["a"].
  - by eexists.
Defined.

(** ** More on [ComposedSelector] *)

Section MoreComposed.

Context `{Collaborators}.

Implicit Types (w : World) (self : ref) (o : Obj) (fr : Frame).
Implicit Types (tv : TrainValidIterator.t) (selectors : list ref).
Implicit Types (fit : ref → option TrainValidIterator.t → St World unit).

(** A reading method leaves the store as it is, whatever it returns. *)
Lemma on_self_reads_only_any {A} self (m : Method A) w :
  reads_only m → (on_self self m w).2 = w.
Proof.
  intros Hm. unfold on_self. destruct (heap w !! self) as [o|] eqn:Ho; [|done].
  destruct (m {| this := fields o; calls := log w |}) as [r fr] eqn:Em.
  pose proof (Hm _ _ _ Em) as ->. cbn.
  destruct w, o. cbn in *. by rewrite list_insert_id.
Qed.

(** A method of [self] leaves the other objects alone. *)
Lemma on_self_others {A} self (m : Method A) w j :
  j ≠ self → heap (on_self self m w).2 !! j = heap w !! j.
Proof.
  intros Hne. unfold on_self. destruct (heap w !! self) as [o|]; [|done].
  destruct (m _) as [r fr]. cbn. by rewrite list_lookup_insert_ne.
Qed.

Lemma set__in_features_id (f : Fields) v :
  _in_features f = v → set__in_features v f = f.
Proof. destruct f. cbn. by intros <-. Qed.

Lemma set__selected_features_id (f : Fields) v :
  _selected_features f = v → set__selected_features v f = f.
Proof. destruct f. cbn. by intros <-. Qed.

(** Storing a value an attribute already has changes nothing. *)
Lemma on_self_setattr_id self (upd : Fields → Fields) w o :
  heap w !! self = Some o →
  upd (fields o) = fields o →
  on_self self (setattr upd) w = (inr tt, w).
Proof.
  intros Ho Hupd. rewrite (on_self_setattr _ _ _ _ Ho), Hupd.
  destruct w, o. cbn in *. by rewrite list_insert_id.
Qed.

(** On a fitted selector [apply_selector] leaves the store as it is,
    whether [select] returns or raises. *)
Lemma apply_selector_fitted_any fit tv c w o1 :
  heap w !! c = Some o1 → fitted o1 → (apply_selector fit tv c w).2 = w.
Proof.
  intros Ho1 [selected Hsel]. unfold apply_selector. unfold bind at 1.
  rewrite (on_self_pure c is_fitted w o1 (inr true) Ho1)
    by (by rewrite is_fitted_eq; cbn; rewrite Hsel).
  unfold bind at 1. cbn [ret]. unfold bind.
  pose proof (on_self_reads_only_any c
                (select (TrainValidIterator.train tv)) w
                (select_reads_only _)) as Hw.
  destruct (on_self c (select (TrainValidIterator.train tv)) w)
    as [[e|d] w0]; cbn in Hw; by subst.
Qed.

(** Over fitted children the loop of [ComposedSelector.fit] leaves the
    store as it is. *)
Lemma ComposedSelector_fit_loop_any fit selectors
    (tvo : option TrainValidIterator.t) w :
  (∀ c, c ∈ selectors → ∃ o, heap w !! c = Some o ∧ fitted o) →
  (for_loop selectors tvo (ComposedSelector_fit_body fit) w).2 = w.
Proof.
  revert tvo. induction selectors as [|c rest IH]; intros tvo Hfitted;
    [done|].
  cbn [for_loop]. unfold bind at 1. unfold ComposedSelector_fit_body at 1.
  unfold bind at 1. destruct tvo as [tv|]; [|done]. cbn [nonnull ret].
  unfold bind at 1.
  destruct (Hfitted c) as (o1 & Ho1 & Hfit1); [left|].
  pose proof (apply_selector_fitted_any fit tv c w o1 Ho1 Hfit1) as Hw.
  destruct (apply_selector fit tv c w) as [[e|tv'] w0]; cbn in Hw; subst;
    [done|].
  cbn [ret]. apply IH. intros c' Hc'. apply Hfitted. by right.
Qed.

(** When the loop of [ComposedSelector.fit] returns, every child is
    fitted. *)
Lemma ComposedSelector_fit_loop_fitted fit selectors tvo w tvo' w' :
  (∀ c0 tvo0 w0 w0', fit c0 tvo0 w0 = (inr tt, w0') →
                     keeps_fitted_except (Some c0) w0 w0') →
  for_loop selectors tvo (ComposedSelector_fit_body fit) w = (inr tvo', w') →
  ∀ c, c ∈ selectors → ∃ o, heap w' !! c = Some o ∧ fitted o.
Proof.
  intros Hfit. revert tvo w.
  induction selectors as [|c rest IH]; intros tvo w Hloop c' Hc'.
  - by apply elem_of_nil in Hc'.
  - cbn [for_loop] in Hloop.
    apply bind_ok in Hloop as (tvo1 & w1 & Hbody & Hrest).
    apply elem_of_cons in Hc' as [->|Hc']; [|by eapply IH].
    unfold ComposedSelector_fit_body in Hbody.
    apply bind_ok in Hbody as (tv & w0 & Htv & Hbody).
    destruct tvo as [tv0|]; [|done]. injection Htv as -> ->.
    apply bind_ok in Hbody as (tv1 & w1' & Happly & Hret).
    injection Hret as <- <-.
    apply (apply_selector_ok _ _ _ _ _ _ Hfit) in Happly
      as (_ & o1 & d & Ho1 & Hfitted1 & _).
    destruct (ComposedSelector_fit_loop _ _ _ _ _ _ Hfit Hrest)
      as [[_ Hkeep] _].
    destruct (Hkeep c o1 Ho1) as (o1' & Ho1' & _ & Heq).
    rewrite (Heq ltac:(done) Hfitted1) in Ho1'. eauto.
Qed.

(** X15. After [ComposedSelector.fit] has returned, every child selector
    is fitted. *)
Theorem composed_fit_fits_children limit self selectors tvo w w' o :
  heap w !! self = Some o →
  cls o = ComposedSelector_class selectors →
  fit limit self tvo w = (inr tt, w') →
  ∀ c, c ∈ selectors → on_self c is_fitted w' = (inr true, w').
Proof.
  intros Ho Hcls Hfit c Hc. destruct limit as [|limit]; [done|].
  cbn [fit] in Hfit. apply bind_ok in Hfit as (c0 & w0 & Hc0 & Hfit).
  rewrite (class_of_eq _ _ _ Ho), Hcls in Hc0. injection Hc0 as <- <-.
  apply ComposedSelector_fit_ok in Hfit
    as (tvo' & wl & first & last_selector & o_first & inf & o_self & o_last
        & selected & Hloop & _ & _ & _ & _ & Ho_self & _ & _ & ->).
  destruct (ComposedSelector_fit_loop_fitted _ _ _ _ _ _
              (fit_keeps limit) Hloop c Hc) as (oc & Hoc & [sel Hsel]).
  assert (self < length (heap wl)) as Hlt by (by eapply lookup_lt_Some).
  destruct (decide (c = self)) as [->|Hne].
  - eapply on_self_pure; [cbn; by rewrite list_lookup_insert_eq|].
    by rewrite is_fitted_eq.
  - eapply on_self_pure; [cbn; by rewrite list_lookup_insert_ne|].
    rewrite is_fitted_eq. cbn. by rewrite Hsel.
Qed.

(** With the children fitted and [self] holding the input features of
    the first and the selected features of the last, [fit] on a composed
    selector changes nothing. *)
Lemma ComposedSelector_fit_settled fit self selectors
    (tvo : option TrainValidIterator.t) w o' first last_selector
    o_first o_last inf selected :
  heap w !! self = Some o' →
  _in_features (fields o') = Some inf →
  _selected_features (fields o') = Some selected →
  head selectors = Some first →
  last selectors = Some last_selector →
  heap w !! first = Some o_first →
  _in_features (fields o_first) = Some inf →
  heap w !! last_selector = Some o_last →
  _selected_features (fields o_last) = Some selected →
  (∀ c, c ∈ selectors → ∃ o, heap w !! c = Some o ∧ fitted o) →
  (ComposedSelector_fit fit self selectors tvo w).2 = w.
Proof.
  intros Ho' Hin' Hsel' Hhead Hlast Hfirst Hinf Hol Hsell Hfitted.
  unfold ComposedSelector_fit. unfold bind at 1.
  pose proof (ComposedSelector_fit_loop_any fit selectors tvo w Hfitted)
    as Hw.
  destruct (for_loop selectors tvo (ComposedSelector_fit_body fit) w)
    as [[e|tvo'] w0]; cbn in Hw; subst; [done|].
  unfold bind at 1. unfold getitem_first. rewrite Hhead. cbn [ret].
  unfold bind at 1.
  rewrite (on_self_pure first in_features w o_first (inr inf) Hfirst)
    by (by apply in_features_Some).
  unfold bind at 1.
  rewrite (on_self_setattr_id self _ w o' Ho')
    by (by apply set__in_features_id).
  unfold ComposedSelector_perform_selection, bind, getitem_last.
  rewrite Hlast. cbn [ret].
  rewrite (on_self_pure last_selector selected_features w o_last
             (inr selected) Hol) by (by apply selected_features_Some).
  by rewrite (on_self_setattr_id self _ w o' Ho')
    by (by apply set__selected_features_id).
Qed.

(** X16. Once [ComposedSelector.fit] has returned, no later [fit] on
    the composed selector changes any selector or the record of calls,
    whatever the iterator and whether the later call returns or raises:
    the children are fitted, so they are only asked to [select].  The
    composed selector is taken not to be one of its own children. *)
Theorem fitted_composed_keeps_store limit self selectors tvo w w1 o
    limit2 (tvo2 : option TrainValidIterator.t) :
  heap w !! self = Some o →
  cls o = ComposedSelector_class selectors →
  self ∉ selectors →
  fit limit self tvo w = (inr tt, w1) →
  (fit limit2 self tvo2 w1).2 = w1.
Proof.
  intros Ho Hcls Hchild Hfit. destruct limit as [|limit]; [done|].
  cbn [fit] in Hfit. apply bind_ok in Hfit as (c0 & w0 & Hc0 & Hfit).
  rewrite (class_of_eq _ _ _ Ho), Hcls in Hc0. injection Hc0 as <- <-.
  apply ComposedSelector_fit_ok in Hfit
    as (tvo' & wl & first & last_selector & o_first & inf & o_self & o_last
        & selected & Hloop & Hhead & Hlast & Ho_first & Hinf & Ho_self
        & Ho_last & Hselected & ->).
  pose proof (ComposedSelector_fit_loop_fitted _ _ _ _ _ _
                (fit_keeps limit) Hloop) as Hfitted.
  destruct (ComposedSelector_fit_loop _ _ _ _ _ _ (fit_keeps limit) Hloop)
    as [[_ Hkeep] _].
  destruct (Hkeep self o Ho) as (o_self' & Ho_self' & Hcls' & _).
  assert (o_self' = o_self) as -> by congruence.
  assert (self < length (heap wl)) as Hlt by (by eapply lookup_lt_Some).
  assert (first ≠ self) as Hfirst
    by (intros ->; by apply Hchild, head_Some_elem_of).
  assert (last_selector ≠ self) as Hlast_ne
    by (intros ->; by apply Hchild, last_Some_elem_of).
  rewrite list_lookup_insert_ne in Ho_last by done.
  set (o' := {| cls := cls o_self;
                fields := set__selected_features (Some selected)
                            (set__in_features (Some inf) (fields o_self)) |}).
  set (w1 := {| heap := <[self := o']> (heap wl); log := log wl |}).
  assert (heap w1 !! self = Some o') as Hself
    by (cbn; by rewrite list_lookup_insert_eq).
  assert (∀ c, c ∈ selectors → heap w1 !! c = heap wl !! c) as Hsame.
  { intros c Hc. cbn. rewrite list_lookup_insert_ne; [done|].
    intros ->. by apply Hchild. }
  destruct limit2 as [|limit2]; [done|].
  cbn [fit]. unfold bind at 1.
  rewrite (class_of_eq _ _ _ Hself). cbn [cls o']. rewrite Hcls', Hcls.
  apply (ComposedSelector_fit_settled _ _ _ _ _ o' first last_selector
           o_first o_last inf selected); try done.
  - by rewrite Hsame by (by apply head_Some_elem_of).
  - by rewrite Hsame by (by apply last_Some_elem_of).
  - intros c Hc. rewrite (Hsame c Hc). by apply Hfitted.
Qed.

(** X17. [ComposedSelector.fit()] called without an iterator on a
    composed selector that has a child raises [AttributeError] at
    [apply_selector], before any child is touched. *)
Theorem composed_fit_without_iterator limit self c rest w o :
  heap w !! self = Some o →
  cls o = ComposedSelector_class (c :: rest) →
  fit (S limit) self None w
  = (inl (AttributeError
            "'NoneType' object has no attribute 'apply_selector'"), w).
Proof.
  intros Ho Hcls. cbn [fit]. unfold bind at 1.
  by rewrite (class_of_eq _ _ _ Ho), Hcls.
Qed.

(** X18. [get_features_score] of a composed selector reads the last
    child when it is called: after [map_raw_feature_importances] on the
    last child, with labels the name mapping traces, the composed
    selector reports the new table without being fitted again. *)
Theorem composed_score_follows_last_child self selectors c w o oc inf
    (raw : Series) mapped :
  heap w !! self = Some o →
  cls o = ComposedSelector_class selectors →
  last selectors = Some c →
  heap w !! c = Some oc →
  _in_features (fields oc) = Some inf →
  map_pipeline_names inf (Series_index raw) = inr mapped →
  ∃ w',
    on_self c (map_raw_feature_importances raw) w = (inr tt, w')
    ∧ get_features_score self w'
      = (inr (Some (sort_values_desc
                      (groupby_sum (zip mapped (Series_values raw))))), w').
Proof.
  intros Ho Hcls Hlast Hoc Hin Hmap. eexists. split.
  - rewrite (on_self_eq _ _ _ _ Hoc).
    by rewrite (map_raw_feature_importances_eq _ inf raw mapped) by done.
  - cbn [fst snd this calls].
    assert (c < length (heap w)) as Hlt by (by eapply lookup_lt_Some).
    set (oc' := {| cls := cls oc;
                   fields := set_mapped_importances _ (fields oc) |}).
    set (w' := {| heap := <[c := oc']> (heap w); log := log w |}).
    assert (heap w' !! c = Some oc') as Hc'
      by (cbn; by rewrite list_lookup_insert_eq).
    assert (∃ o', heap w' !! self = Some o'
                  ∧ cls o' = ComposedSelector_class selectors)
      as (o' & Ho' & Hcls').
    { destruct (decide (self = c)) as [->|Hne].
      - exists oc'. split; [done|]. cbn. congruence.
      - exists o. split; [|done]. cbn. by rewrite list_lookup_insert_ne. }
    unfold get_features_score. unfold bind at 1.
    rewrite (class_of_eq _ _ _ Ho'), Hcls'.
    unfold ComposedSelector_get_features_score, bind, getitem_last.
    rewrite Hlast. cbn [ret].
    eapply on_self_pure; [exact Hc'|]. done.
Qed.

(** When [apply_selector] returns on a selector that is not composed,
    only that selector can have changed. *)
Lemma apply_selector_leaf_others limit tv c w tv' w' o :
  heap w !! c = Some o →
  is_Some (perform_selection_of (cls o)) →
  apply_selector (fit limit) tv c w = (inr tv', w') →
  ∀ j, j ≠ c → heap w' !! j = heap w !! j.
Proof.
  intros Ho [perform Hperform] Happly j Hne. unfold apply_selector in Happly.
  apply bind_ok in Happly as (b & w0 & Hb & Happly).
  apply (on_self_reads_only _ _ _ _ _ is_fitted_reads_only) in Hb
    as (-> & _).
  apply bind_ok in Happly as ([] & w1 & Hstep & Happly).
  apply bind_ok in Happly as (d & w2 & Hsel & Hret).
  apply (on_self_reads_only _ _ _ _ _ (select_reads_only _)) in Hsel
    as (-> & _).
  injection Hret as _ <-.
  destruct b; [by injection Hstep as <-|].
  destruct limit as [|limit]; [done|].
  rewrite (fit_leaf _ _ _ _ _ perform Ho Hperform) in Hstep.
  pose proof (on_self_others c (SelectionPipeline_fit perform (Some tv)) w j
                Hne) as Hj.
  by rewrite Hstep in Hj.
Qed.

(** X19. In [ComposedSelector([S1, S2]).fit(train_valid)] with S1 not
    composed and S2 an unfit [EmptySelector], the second stage is fitted
    on the iterator restricted by the first: the input features and the
    selected features of S2, and so the selected features of the
    composed selector, are the selected features of S1. *)
Theorem composed_chain_narrows limit self c1 c2 tv w w' o o1 f2 :
  heap w !! self = Some o →
  cls o = ComposedSelector_class [c1; c2] →
  self ≠ c1 → self ≠ c2 → c1 ≠ c2 →
  heap w !! c1 = Some o1 →
  is_Some (perform_selection_of (cls o1)) →
  heap w !! c2 = Some {| cls := EmptySelector_class; fields := f2 |} →
  _selected_features f2 = None →
  bare f2 →
  fit limit self (Some tv) w = (inr tt, w') →
  ∃ selected1,
    on_self c1 selected_features w' = (inr selected1, w')
    ∧ on_self c2 in_features w' = (inr selected1, w')
    ∧ on_self c2 selected_features w' = (inr selected1, w')
    ∧ on_self self selected_features w' = (inr selected1, w').
Proof.
  intros Ho Hcls Hne1 Hne2 Hne12 Ho1 Hleaf Ho2 Hunfit Hbare Hfit.
  destruct limit as [|limit]; [done|].
  cbn [fit] in Hfit. apply bind_ok in Hfit as (c0 & w0 & Hc0 & Hfit).
  rewrite (class_of_eq _ _ _ Ho), Hcls in Hc0. injection Hc0 as <- <-.
  apply ComposedSelector_fit_ok in Hfit
    as (tvo' & wl & first & last_selector & o_first & inf & o_self & o_last
        & selected & Hloop & _ & Hlast & _ & _ & Ho_self
        & Ho_last & Hselected & ->).
  injection Hlast as <-.
  rewrite list_lookup_insert_ne in Ho_last by done.
  (* the first stage *)
  cbn [for_loop] in Hloop.
  apply bind_ok in Hloop as (tvo1 & wa0 & Hbody1 & Hloop).
  apply bind_ok in Hloop as (tvo2 & wb & Hbody2 & Hret).
  injection Hret as _ <-.
  unfold ComposedSelector_fit_body in Hbody1.
  apply bind_ok in Hbody1 as (tv0 & w0 & Htv0 & Hbody1).
  injection Htv0 as <- <-.
  apply bind_ok in Hbody1 as (tv1 & wa & Happly1 & Hret1).
  injection Hret1 as <- <-.
  pose proof (apply_selector_leaf_others _ _ _ _ _ _ _ Ho1 Hleaf Happly1)
    as Hothers.
  apply (apply_selector_ok _ _ _ _ _ _ (fit_keeps limit)) in Happly1
    as (_ & o1' & d & Ho1' & _ & Hsel1 & ->).
  pose proof (Hsel1 []) as [_ Hd]%select_inv.
  destruct (Hd d eq_refl)
    as (selected1 & Hselected1 & [-> _]%getitem_cols_inr).
  cbn in Hselected1.
  rewrite <- (Hothers c2) in Ho2 by done.
  (* the second stage *)
  unfold ComposedSelector_fit_body in Hbody2.
  apply bind_ok in Hbody2 as (tv1' & w0 & Htv1 & Hbody2).
  injection Htv1 as <- <-.
  apply bind_ok in Hbody2 as (tv2 & wb' & Happly2 & Hret2).
  injection Hret2 as _ <-.
  unfold apply_selector in Happly2.
  apply bind_ok in Happly2 as (b & w0 & Hb & Happly2).
  rewrite (on_self_pure c2 is_fitted wa _ (inr false) Ho2) in Hb
    by (by rewrite is_fitted_eq; cbn; rewrite Hunfit).
  injection Hb as <- <-.
  apply bind_ok in Happly2 as ([] & wb1 & Hstep & Happly2).
  apply bind_ok in Happly2 as (d2 & wb2 & Hsel2 & Hret2).
  apply (on_self_reads_only _ _ _ _ _ (select_reads_only _)) in Hsel2
    as (-> & _).
  injection Hret2 as _ <-.
  destruct limit as [|limit]; [done|].
  rewrite (fit_leaf _ _ _ _ _ EmptySelector_perform_selection Ho2) in Hstep
    by done.
  rewrite (on_self_eq _ _ _ _ Ho2) in Hstep. cbn [fields cls] in Hstep.
  rewrite !SelectionPipeline_fit_bare in Hstep by done.
  cbn in Hstep. injection Hstep as <-.
  (* the store at the end *)
  assert (c2 < length (heap wa)) as Hlt2 by (by eapply lookup_lt_Some).
  cbn in Ho_last, Ho_self.
  rewrite list_lookup_insert_eq in Ho_last by done.
  injection Ho_last as <-. cbn in Hselected. injection Hselected as <-.
  exists selected1. split_and!.
  - eapply on_self_pure.
    + cbn. rewrite !list_lookup_insert_ne by done. exact Ho1'.
    + by apply selected_features_Some.
  - eapply on_self_pure.
    + cbn. rewrite list_lookup_insert_ne by done.
      by rewrite list_lookup_insert_eq.
    + by apply in_features_Some.
  - eapply on_self_pure.
    + cbn. rewrite list_lookup_insert_ne by done.
      by rewrite list_lookup_insert_eq.
    + by apply selected_features_Some.
  - eapply on_self_pure.
    + cbn. rewrite list_lookup_insert_eq; [done|].
      apply lookup_lt_Some in Ho_self. by rewrite length_insert in *.
    + by apply selected_features_Some.
Qed.

(** On a selector that is not composed, [apply_selector] leaves the store
    as it is or as the selector's [fit] leaves it. *)
Lemma apply_selector_leaf_state limit tv c w o perform :
  heap w !! c = Some o →
  perform_selection_of (cls o) = Some perform →
  (apply_selector (fit limit) tv c w).2 = w
  ∨ (apply_selector (fit limit) tv c w).2
    = (on_self c (SelectionPipeline_fit perform (Some tv)) w).2.
Proof.
  intros Ho Hperform.
  pose proof (λ w0, on_self_reads_only_any c
                      (select (TrainValidIterator.train tv)) w0
                      (select_reads_only _)) as Hselect.
  destruct (apply_selector (fit limit) tv c w) as [r w'] eqn:Happly.
  cbn [snd]. unfold apply_selector in Happly. unfold bind at 1 in Happly.
  rewrite (on_self_pure c is_fitted w o _ Ho (is_fitted_eq _)) in Happly.
  destruct (bool_decide _).
  - left. unfold bind at 1 in Happly. cbn [ret] in Happly.
    unfold bind in Happly. specialize (Hselect w).
    destruct (on_self c (select _) w) as [[?|?] ?]; cbn in Hselect; subst;
      by injection Happly.
  - cbv beta iota in Happly. unfold bind at 1 in Happly.
    destruct limit as [|limit]; [left; by injection Happly|]. right.
    rewrite (fit_leaf _ _ _ _ _ perform Ho Hperform) in Happly.
    destruct (on_self c (SelectionPipeline_fit perform (Some tv)) w)
      as [[e|[]] w1]; [by injection Happly|].
    unfold bind in Happly. specialize (Hselect w1). cbn [snd].
    destruct (on_self c (select _) w1) as [[?|?] ?]; cbn in Hselect; subst;
      by injection Happly.
Qed.

(** Over children that are not composed, the loop of
    [ComposedSelector.fit] never touches an object that is not a child,
    whether it runs through or a child raises. *)
Lemma ComposedSelector_fit_loop_leaves limit selectors
    (tvo : option TrainValidIterator.t) w self :
  self ∉ selectors →
  (∀ c, c ∈ selectors →
        ∃ oc, heap w !! c = Some oc
              ∧ is_Some (perform_selection_of (cls oc))) →
  heap (for_loop selectors tvo (ComposedSelector_fit_body (fit limit)) w).2
  !! self = heap w !! self.
Proof.
  revert tvo w. induction selectors as [|c rest IH]; intros tvo w Hself Hleaf;
    [done|].
  apply not_elem_of_cons in Hself as [Hne Hself].
  cbn [for_loop]. unfold bind at 1. unfold ComposedSelector_fit_body at 1.
  unfold bind at 1. destruct tvo as [tv|]; [|done]. cbn [nonnull ret].
  unfold bind at 1.
  destruct (Hleaf c) as (oc & Hoc & [perform Hperform]); [left|].
  pose proof (apply_selector_leaf_state limit tv c w oc perform Hoc Hperform)
    as Hstate.
  destruct (apply_selector (fit limit) tv c w) as [r w1] eqn:Happly.
  cbn [snd] in Hstate.
  assert (∀ j, j ≠ c → heap w1 !! j = heap w !! j) as Hothers.
  { intros j Hj. destruct Hstate as [->| ->]; [done|].
    by apply on_self_others. }
  assert (∃ oc', heap w1 !! c = Some oc' ∧ cls oc' = cls oc)
    as (oc' & Hoc' & Hcls').
  { destruct Hstate as [->| ->]; [by exists oc|].
    destruct (on_self c (SelectionPipeline_fit perform (Some tv)) w)
      as [r' w2] eqn:E.
    destruct (proj2 (on_self_keeps _ _ _ _ _ E) c oc Hoc)
      as (oc' & ? & ? & _). by exists oc'. }
  destruct r as [e|tv']; cbn [snd]; [by apply Hothers|].
  cbn [ret]. rewrite IH; [by apply Hothers | done |].
  intros c' Hc'. destruct (decide (c' = c)) as [->|Hne'].
  - exists oc'. split; [done|]. by rewrite Hcls', Hperform.
  - rewrite Hothers by done. apply Hleaf. by right.
Qed.

(** X22. [ComposedSelector.fit] updates the composed selector only when
    it returns: with children that are not composed, whenever it raises,
    because a child fails to fit or to select or because the sequence is
    empty, the attributes of the composed selector are as before the
    call. *)
Theorem composed_fit_failure_keeps_self limit self selectors
    (tvo : option TrainValidIterator.t) w w' o e :
  heap w !! self = Some o →
  cls o = ComposedSelector_class selectors →
  self ∉ selectors →
  (∀ c, c ∈ selectors →
        ∃ oc, heap w !! c = Some oc
              ∧ is_Some (perform_selection_of (cls oc))) →
  fit limit self tvo w = (inl e, w') →
  heap w' !! self = Some o.
Proof.
  intros Ho Hcls Hself Hleaf Hfit.
  destruct limit as [|limit]; [by injection Hfit as _ <-|].
  cbn [fit] in Hfit. unfold bind at 1 in Hfit.
  rewrite (class_of_eq _ _ _ Ho), Hcls in Hfit.
  unfold ComposedSelector_fit in Hfit. unfold bind at 1 in Hfit.
  pose proof (ComposedSelector_fit_loop_leaves limit selectors tvo w self
                Hself Hleaf) as Hkept.
  destruct (for_loop selectors tvo (ComposedSelector_fit_body (fit limit)) w)
    as [[e1|tvo'] wl] eqn:Hloop; cbn [snd] in Hkept.
  { injection Hfit as _ <-. by rewrite Hkept. }
  rewrite Ho in Hkept.
  unfold bind at 1 in Hfit. unfold getitem_first in Hfit.
  destruct (head selectors) as [first|] eqn:Hhead;
    [|by injection Hfit as _ <-].
  cbn [ret] in Hfit. unfold bind at 1 in Hfit.
  pose proof (on_self_reads_only_any first in_features wl
                in_features_reads_only) as Hread.
  destruct (on_self first in_features wl) as [[e2|inf] wl2];
    cbn [snd] in Hread; subst wl2; [by injection Hfit as _ <-|].
  unfold bind at 1 in Hfit.
  rewrite (on_self_setattr _ _ _ _ Hkept) in Hfit.
  unfold ComposedSelector_perform_selection, getitem_last in Hfit.
  unfold bind at 1 in Hfit.
  destruct (last selectors) as [last_selector|] eqn:Hlast.
  - exfalso. cbn [ret] in Hfit. unfold bind at 1 in Hfit.
    assert (last_selector ∈ selectors) as Hin
      by (by apply last_Some_elem_of).
    destruct (ComposedSelector_fit_loop_fitted _ _ _ _ _ _
                (fit_keeps limit) Hloop last_selector Hin)
      as (ol & Hol & [selected Hsel]).
    assert (last_selector ≠ self) as Hne by (by intros ->).
    erewrite on_self_pure in Hfit;
      [ | cbn; rewrite list_lookup_insert_ne by done; exact Hol
        | by apply selected_features_Some ].
    cbv beta iota in Hfit.
    rewrite (on_self_setattr self _ _
               {| cls := cls o;
                  fields := set__in_features (Some inf) (fields o) |})
      in Hfit; [done|].
    cbn. rewrite list_lookup_insert_eq; [done|]. by eapply lookup_lt_Some.
  - apply last_None in Hlast. by subst.
Qed.

End MoreComposed.

(** The composed selector of [Demo.chain_world] fits on a, b, c. *)
Lemma Demo_chain_fit :
  fit 2 2 (Some Demo.abc_iterator) Demo.chain_world
  = (inr tt, Demo.fitted_chain_world).
Proof. reflexivity. Qed.

Lemma composed_fit_fits_children_witness :
  on_self 0 is_fitted Demo.fitted_chain_world
  = (inr true, Demo.fitted_chain_world)
  ∧ on_self 1 is_fitted Demo.fitted_chain_world
    = (inr true, Demo.fitted_chain_world).
Proof.
  split.
  - refine (composed_fit_fits_children 2 2 [0; 1] (Some Demo.abc_iterator)
              Demo.chain_world Demo.fitted_chain_world Demo.chain_composed
              eq_refl eq_refl Demo_chain_fit 0 _).
    by left.
  - refine (composed_fit_fits_children 2 2 [0; 1] (Some Demo.abc_iterator)
              Demo.chain_world Demo.fitted_chain_world Demo.chain_composed
              eq_refl eq_refl Demo_chain_fit 1 _).
    by right; left.
Defined.

Lemma fitted_composed_keeps_store_witness :
  (fit 2 2 None Demo.fitted_chain_world).2 = Demo.fitted_chain_world
  ∧ (fit 2 2 (Some Demo.ab_iterator) Demo.fitted_chain_world).2
    = Demo.fitted_chain_world.
Proof.
  assert (2 ∉ [0; 1]) as Hchild.
  { intros Hin.
    repeat (apply elem_of_cons in Hin as [Hin|Hin]; [discriminate|]).
    by apply elem_of_nil in Hin. }
  split.
  - exact (fitted_composed_keeps_store 2 2 [0; 1] (Some Demo.abc_iterator)
             Demo.chain_world Demo.fitted_chain_world Demo.chain_composed
             2 None eq_refl eq_refl Hchild Demo_chain_fit).
  - exact (fitted_composed_keeps_store 2 2 [0; 1] (Some Demo.abc_iterator)
             Demo.chain_world Demo.fitted_chain_world Demo.chain_composed
             2 (Some Demo.ab_iterator) eq_refl eq_refl Hchild
             Demo_chain_fit).
Defined.

Lemma composed_fit_without_iterator_witness :
  fit 1 2 None Demo.chain_world
  = (inl (AttributeError
            "'NoneType' object has no attribute 'apply_selector'"),
     Demo.chain_world).
Proof.
  exact (composed_fit_without_iterator 0 2 0 [1] Demo.chain_world
           Demo.chain_composed eq_refl eq_refl).
Defined.

Lemma composed_score_follows_last_child_witness :
  ∃ w',
    on_self 0
      (@map_raw_feature_importances Demo.collaborators
         [("a", 2%Z); ("a_squared", 1%Z)]) Demo.score_world
    = (inr tt, w')
    ∧ get_features_score 1 w'
      = (inr (Some [("a", 3%Z)]), w').
Proof.
  exact (@composed_score_follows_last_child Demo.collaborators 1 [0] 0
           Demo.score_world
           {| cls := ComposedSelector_class [0]; fields := Demo.fresh |}
           {| cls := EmptySelector_class; fields := this Demo.fitted_a |}
           ["a"; "b"; "c"] [("a", 2%Z); ("a_squared", 1%Z)] ["a"; "a"]
           eq_refl eq_refl eq_refl eq_refl eq_refl eq_refl).
Defined.

Lemma composed_chain_narrows_witness :
  ∃ selected1,
    on_self 0 selected_features Demo.fitted_chain_world
    = (inr selected1, Demo.fitted_chain_world)
    ∧ on_self 1 in_features Demo.fitted_chain_world
      = (inr selected1, Demo.fitted_chain_world)
    ∧ on_self 2 selected_features Demo.fitted_chain_world
      = (inr selected1, Demo.fitted_chain_world).
Proof.
  destruct (composed_chain_narrows 2 2 0 1 Demo.abc_iterator
              Demo.chain_world Demo.fitted_chain_world Demo.chain_composed
              Demo.chain_first Demo.fresh
              eq_refl eq_refl ltac:(done) ltac:(done) ltac:(done) eq_refl
              (ex_intro _ _ eq_refl) eq_refl eq_refl
              (conj eq_refl (conj eq_refl (conj eq_refl eq_refl)))
              Demo_chain_fit)
    as (selected1 & H1 & H2 & _ & H3).
  exists selected1. exact (conj H1 (conj H2 H3)).
Defined.

Lemma fit_reuses_fitted_model_witness :
  (SelectionPipeline_fit EmptySelector_perform_selection
     (Some Demo.abc_iterator) Demo.with_fitted_model).1 = inr tt
  ∧ calls (SelectionPipeline_fit EmptySelector_perform_selection
             (Some Demo.abc_iterator) Demo.with_fitted_model).2
    = [imp_estimator_fit_call].
Proof.
  rewrite (fit_reuses_fitted_model EmptySelector_perform_selection
             Demo.with_fitted_model Demo.abc_iterator
             {| MLAlgo.is_fitted := true;
                MLAlgo.features := ["a"; "b"; "c"] |}
             Demo.fixed_estimator Demo.fixed_scores
             eq_refl eq_refl eq_refl eq_refl eq_refl eq_refl).
  split; reflexivity.
Defined.

Lemma fit_keeps_pristine_model_witness :
  _empty_algo
    (this (SelectionPipeline_fit EmptySelector_perform_selection
             (Some Demo.abc_iterator)
             {| this := @SelectionPipeline__init__ Demo.collaborators None
                          (Some (inl Demo.unfit_model)) None false;
                calls := [] |}).2)
  = Some Demo.unfit_model.
Proof.
  pose proof (@fit_keeps_pristine_model Demo.collaborators
                EmptySelector_perform_selection None Demo.unfit_model None
                false Demo.abc_iterator []
                (λ _ _, conj eq_refl eq_refl) eq_refl) as [Hempty _].
  exact Hempty.
Defined.

Lemma composed_fit_failure_keeps_self_witness :
  (fit 2 1 (Some Demo.abc_iterator) Demo.failing_world).1
  = inl (AssertionError "Columns to select not match with dataset features")
  ∧ heap (fit 2 1 (Some Demo.abc_iterator) Demo.failing_world).2 !! 1
    = Some {| cls := ComposedSelector_class [0]; fields := Demo.fresh |}.
Proof.
  split; [reflexivity|].
  apply (composed_fit_failure_keeps_self 2 1 [0] (Some Demo.abc_iterator)
           Demo.failing_world _ _
           (AssertionError
              "Columns to select not match with dataset features")).
  - reflexivity.
  - reflexivity.
  - intros Hin. apply list_elem_of_singleton in Hin. discriminate.
  - intros c ->%list_elem_of_singleton. eexists. split; [reflexivity|].
    by eexists.
  - reflexivity.
Defined.
